(** * Mp3-to-Test: the transcription pipeline of [mp3-to-text-gui.py]

    A shallow embedding of the three top-level functions of the script,
    [format_transcription], [format_time] and
    [transcribe_mp3_to_text_and_srt], together with the pieces of the Python
    standard library they call ([str.strip], [re.split], [re.search],
    [textwrap.fill], integer formatting), and of the two output paths that
    [MP3TranscriberApp.start_transcription] computes with [os.path].

    Conventions.
    - A Python [str] is a [list ascii]: the model speaks about ASCII text,
      and the character classes below are Python's restricted to code points
      below 128.
    - A Python [int] is a [Z]; [divmod] by a positive constant is
      [Z.div]/[Z.modulo], which floor as Python does.
    - The file system is explicit state: the scratch directory
      [temp_audio_chunks] and the files written outside of it, by path; the
      two output paths are taken to lie outside the scratch directory.
    - Loading, normalising and splitting the audio is seen through its
      result: the chunks, or the exception raised. [update_callback] is
      taken not to raise; its messages are collected in a log.
    - [textwrap] is the one of CPython 3.10 and later, which breaks a long
      word after a hyphen when it can.
    - [os.path] is [posixpath]: the separator is the slash. *)

From Stdlib Require Import ZArith Ascii String DecimalString Decimal DecimalZ
  DecimalPos Sorted.
From stdpp Require Import gmap strings list.

Open Scope Z_scope.

(** ** Text *)

Abbreviation text := (list ascii).

Definition str (s : string) : text := list_ascii_of_string s.

Definition code (c : ascii) : N := N_of_ascii c.

(** [str.isspace] on one character (also the class [\s] of [re] on [str]
    patterns): TAB, LF, VT, FF, CR, the four separators FS GS RS US, space. *)
Definition isspace (c : ascii) : bool :=
  ((9 <=? code c) && (code c <=? 13) || (28 <=? code c) && (code c <=? 32))%N.

(** [str.islower] on one character. *)
Definition islower (c : ascii) : bool :=
  ((97 <=? code c) && (code c <=? 122))%N.

(** [str.upper] on one character. *)
Definition upper (c : ascii) : ascii :=
  if islower c then ascii_of_N (code c - 32) else c.

(** [" ".join(parts)] and friends. *)
Fixpoint join (sep : text) (parts : list text) : text :=
  match parts with
  | [] => []
  | [p] => p
  | p :: ps => p ++ sep ++ join sep ps
  end.

(** [str.lstrip], [str.rstrip], [str.strip] without argument. *)
Fixpoint lstrip (s : text) : text :=
  match s with
  | c :: s' => if isspace c then lstrip s' else s
  | [] => []
  end.

Definition rstrip (s : text) : text := rev (lstrip (rev s)).

Definition strip (s : text) : text := rstrip (lstrip s).

(** ** Integer formatting *)

(** [str(n)] for an [int]. *)
Definition str_of_int (z : Z) : text :=
  list_ascii_of_string (NilZero.string_of_int (Z.to_int z)).

(** The format specification [0{w}d]: sign-aware zero padding to width [w]. *)
Definition zfill (w : nat) (digits : text) : text :=
  repeat "0"%char (w - length digits)%nat ++ digits.

Definition format_d (w : nat) (z : Z) : text :=
  if z <? 0
  then "-"%char :: zfill (w - 1) (str_of_int (- z))
  else zfill w (str_of_int z).

(** ** [format_time] *)

(** The three [divmod] lines of [format_time]: the fields
    [(hours, minutes, seconds, milliseconds)] that get printed. *)
Definition time_fields (milliseconds : Z) : Z * Z * Z * Z :=
  let '(seconds, milliseconds) := (milliseconds / 1000, milliseconds mod 1000) in
  let '(minutes, seconds) := (seconds / 60, seconds mod 60) in
  let '(hours, minutes) := (minutes / 60, minutes mod 60) in
  (hours, minutes, seconds, milliseconds).

Definition format_time (milliseconds : Z) : text :=
  let '(hours, minutes, seconds, milliseconds) := time_fields milliseconds in
  format_d 2 hours ++ str ":" ++ format_d 2 minutes ++ str ":" ++
  format_d 2 seconds ++ str "," ++ format_d 3 milliseconds.

Definition hours_shown (milliseconds : Z) : Z :=
  let '(hours, _, _, _) := time_fields milliseconds in hours.


(** ** Regular expressions of [format_transcription] *)

Definition LF : ascii := "010"%char.

(** The class [[.!?]]. *)
Definition is_terminal (c : ascii) : bool :=
  (c =? ".")%char || (c =? "!")%char || (c =? "?")%char.

(** Where the scanner of [re.split(r'(?<=[.!?])\s+', text)] stands: inside a
    match (a run of whitespace that started right after a terminal mark),
    right after a terminal mark, or elsewhere. *)
Inductive split_state := InMatch | AfterTerminal | Elsewhere.

Definition state_after (c : ascii) : split_state :=
  if is_terminal c then AfterTerminal else Elsewhere.

Definition push (c : ascii) (pieces : list text) : list text :=
  match pieces with
  | p :: ps => (c :: p) :: ps
  | [] => [[c]]
  end.

(** [re.split(r'(?<=[.!?])\s+', s)], scanning left to right: a match starts
    at a whitespace character that follows a terminal mark and takes the
    whole run of whitespace; the pieces between the matches are returned,
    the last one possibly empty. *)
Fixpoint re_split_from (st : split_state) (s : text) : list text :=
  match s with
  | [] => [[]]
  | c :: s' =>
      match st with
      | InMatch =>
          if isspace c then re_split_from InMatch s'
          else push c (re_split_from (state_after c) s')
      | AfterTerminal =>
          if isspace c then [] :: re_split_from InMatch s'
          else push c (re_split_from (state_after c) s')
      | Elsewhere => push c (re_split_from (state_after c) s')
      end
  end.

Definition re_split_sentences (s : text) : list text :=
  re_split_from Elsewhere s.

(** The tail [\s*$] of the second pattern: whitespace up to the end of the
    string, where [$] also matches just before a final line feed. *)
Fixpoint spaces_to_end (s : text) : bool :=
  match s with
  | [] => true
  | c :: s' => (if s' is [] then (c =? LF)%char else false)
               || (isspace c && spaces_to_end s')
  end.

(** [re.search(r'[.!?]\s*$', s)] as a truth value: some position holds a
    terminal mark followed by whitespace only. *)
Fixpoint re_search_terminal (s : text) : bool :=
  match s with
  | [] => false
  | c :: s' => (is_terminal c && spaces_to_end s') || re_search_terminal s'
  end.

(** ** [textwrap.fill] *)

(** The module constant [_whitespace] of [textwrap]. *)
Definition wrap_space (c : ascii) : bool :=
  ((9 <=? code c) && (code c <=? 13) || (code c =? 32))%N.

Definition TAB : ascii := "009"%char.
Definition CR : ascii := "013"%char.

(** [str.expandtabs(tabsize)]: the column restarts after LF and CR. *)
Fixpoint expandtabs_from (tabsize col : nat) (s : text) : text :=
  match s with
  | [] => []
  | c :: s' =>
      if (c =? TAB)%char then
        let incr := (if tabsize is O then O else tabsize - col mod tabsize)%nat in
        repeat " "%char incr ++ expandtabs_from tabsize (col + incr) s'
      else if (c =? LF)%char || (c =? CR)%char then
        c :: expandtabs_from tabsize 0 s'
      else c :: expandtabs_from tabsize (S col) s'
  end.

Definition expandtabs (tabsize : nat) (s : text) : text :=
  expandtabs_from tabsize 0 s.

(** [TextWrapper._munge_whitespace] with [expand_tabs], [replace_whitespace]
    and [tabsize = 8]. *)
Definition munge_whitespace (s : text) : text :=
  map (fun c => if wrap_space c then " "%char else c) (expandtabs 8 s).

(** The classes of [TextWrapper.wordsep_re]: [\d], [\w], [letter] (a
    word character that is no digit) and [word_punct] (a word character or
    one of the seven marks ! ' & . , ? and the double quote). *)
Definition is_digit (c : ascii) : bool :=
  ((48 <=? code c) && (code c <=? 57))%N.

Definition is_word (c : ascii) : bool :=
  (is_digit c || (65 <=? code c) && (code c <=? 90)
   || (97 <=? code c) && (code c <=? 122) || (code c =? 95))%N.

Definition is_letter (c : ascii) : bool := is_word c && negb (is_digit c).

Definition is_word_punct (c : ascii) : bool :=
  is_word c || (code c =? 33)%N || (code c =? 34)%N || (code c =? 39)%N
  || (code c =? 38)%N || (code c =? 46)%N || (code c =? 44)%N
  || (code c =? 63)%N.

Definition is_hyphen (c : ascii) : bool := (c =? "-")%char.

(** Length of the longest prefix whose characters satisfy [p]. *)
Fixpoint run_length (p : ascii -> bool) (s : text) : nat :=
  match s with
  | c :: s' => if p c then S (run_length p s') else O
  | [] => O
  end.

(** [-{2,}] followed by [\w], looked for at the head of [s]: the number of
    hyphens when the pattern matches. *)
Definition em_dash (s : text) : option nat :=
  let k := run_length is_hyphen s in
  if (2 <=? k)%nat && (if drop k s is c :: _ then is_word c else false)
  then Some k else None.

(** The hyphenated-word tail of [wordsep_re], tried with [before] the text up
    to the current position, last character first, and [rest] the text from
    it: a hyphen preceded by [letter letter] or [letter - letter] and
    followed by [letter -? letter]. *)
Definition hyphen_break (before rest : text) : bool :=
  match rest with
  | h :: after =>
      is_hyphen h
      && match before with
         | l1 :: l2 :: more =>
             (is_letter l1 && is_letter l2)
             || (is_letter l1 && is_hyphen l2
                 && (if more is l3 :: _ then is_letter l3 else false))
         | _ => false
         end
      && match after with
         | a1 :: a2 :: more =>
             is_letter a1
             && (is_letter a2
                 || (is_hyphen a2
                     && (if more is a3 :: _ then is_letter a3 else false)))
         | _ => false
         end
  | [] => false
  end.

(** The third alternative of [wordsep_re]: the reluctant [[^ws]+?] takes one
    more character at a time until one of its three tails matches. *)
Fixpoint word_length (before rest : text) : nat :=
  match rest with
  | [] => O
  | c :: rest' =>
      let before' := c :: before in
      if hyphen_break before' rest' then 2%nat
      else if (if rest' is d :: _ then wrap_space d else true) then 1%nat
      else if (if before' is b :: _ then is_word_punct b else false)
              && bool_decide (is_Some (em_dash rest')) then 1%nat
      else S (word_length before' rest')
  end.

(** One match of [wordsep_re] at the current position. *)
Definition chunk_length (before rest : text) : nat :=
  match rest with
  | [] => O
  | c :: _ =>
      if wrap_space c then run_length wrap_space rest
      else
        match before, em_dash rest with
        | b :: _, Some k => if is_word_punct b then k else word_length before rest
        | _, _ => word_length before rest
        end
  end.

(** [TextWrapper._split] with [break_on_hyphens]: the successive matches of
    [wordsep_re]; they tile the text, so no empty string is left to filter
    out. *)
Fixpoint split_from (fuel : nat) (before rest : text) : list text :=
  match fuel, rest with
  | S fuel', _ :: _ =>
      let n := chunk_length before rest in
      take n rest :: split_from fuel' (rev (take n rest) ++ before) (drop n rest)
  | _, _ => []
  end.

Definition split_chunks (s : text) : list text :=
  let s := munge_whitespace s in split_from (length s) [] s.

(** [chunk.strip() == ''] *)
Definition is_blank (chunk : text) : bool := bool_decide (strip chunk = []).

(** The inner loop of [TextWrapper._wrap_chunks]: chunks move to the current
    line as long as they fit. Returns the line, its length and the chunks
    left. *)
Fixpoint take_fitting (width cur_len : nat) (chunks : list text)
  : list text * nat * list text :=
  match chunks with
  | chunk :: chunks' =>
      if (cur_len + length chunk <=? width)%nat then
        let '(cur_line, len, rest) :=
          take_fitting width (cur_len + length chunk) chunks' in
        (chunk :: cur_line, len, rest)
      else ([], cur_len, chunks)
  | [] => ([], cur_len, [])
  end.

(** [chunk.rfind('-', 0, stop)] *)
Fixpoint rfind_from (i : nat) (s : text) : option nat :=
  match s with
  | [] => None
  | c :: s' =>
      match rfind_from (S i) s' with
      | Some j => Some j
      | None => if is_hyphen c then Some i else None
      end
  end.

Definition rfind_hyphen (chunk : text) (stop : nat) : option nat :=
  rfind_from 0 (take stop chunk).

(** [TextWrapper._handle_long_word] with [break_long_words] and
    [break_on_hyphens]: the head chunk is cut after the last hyphen that
    fits, or else where the line is full. *)
Definition handle_long_word (width cur_len : nat) (cur_line chunks : list text)
  : list text * list text :=
  match chunks with
  | chunk :: chunks' =>
      let space_left := (if width <? 1 then 1 else width - cur_len)%nat in
      let end_ :=
        if (space_left <? length chunk)%nat then
          match rfind_hyphen chunk space_left with
          | Some hyphen =>
              if (0 <? hyphen)%nat
                 && existsb (fun c => negb (is_hyphen c)) (take hyphen chunk)
              then S hyphen else space_left
          | None => space_left
          end
        else space_left in
      (cur_line ++ [take end_ chunk], drop end_ chunk :: chunks')
  | [] => (cur_line, [])
  end.

(** One turn of the outer loop of [_wrap_chunks] ([drop_whitespace] set, no
    indent, no [max_lines]): the line produced, if any, and the chunks left.
    [started] tells whether [lines] is non-empty. *)
Definition wrap_line (width : nat) (started : bool) (chunks : list text)
  : option text * list text :=
  let chunks :=
    match chunks with
    | chunk :: chunks' => if is_blank chunk && started then chunks' else chunks
    | [] => []
    end in
  let '(cur_line, cur_len, chunks) := take_fitting width 0 chunks in
  let '(cur_line, chunks) :=
    match chunks with
    | chunk :: _ =>
        if (width <? length chunk)%nat
        then handle_long_word width cur_len cur_line chunks
        else (cur_line, chunks)
    | [] => (cur_line, chunks)
    end in
  let cur_line :=
    match last cur_line with
    | Some chunk => if is_blank chunk then removelast cur_line else cur_line
    | None => cur_line
    end in
  (if cur_line is [] then None else Some (concat cur_line), chunks).

Fixpoint wrap_chunks_from (fuel width : nat) (lines chunks : list text)
  : list text :=
  match fuel, chunks with
  | S fuel', _ :: _ =>
      let '(line, chunks') :=
        wrap_line width (if lines is [] then false else true) chunks in
      wrap_chunks_from fuel' width
        (if line is Some l then lines ++ [l] else lines) chunks'
  | _, _ => lines
  end.

(** Every turn of the outer loop removes a chunk or shortens the head chunk,
    so this many turns are enough. *)
Definition wrap_fuel (chunks : list text) : nat :=
  S (length chunks + length (concat chunks)).

Definition wrap_chunks (width : nat) (chunks : list text) : list text :=
  wrap_chunks_from (wrap_fuel chunks) width [] chunks.

(** [textwrap.fill(s, width=width)] *)
Definition textwrap_fill (s : text) (width : nat) : text :=
  join [LF] (wrap_chunks width (split_chunks s)).

(** ** [format_transcription] *)

(** [if s and s[0].islower(): s = s[0].upper() + s[1:]] *)
Definition capitalize_first (s : text) : text :=
  match s with
  | c :: s' => if islower c then upper c :: s' else s
  | [] => []
  end.

(** The body of the paragraphing loop for sentence number [i]; the state is
    [(formatted_text, paragraph)]. *)
Definition paragraph_step (i : nat) (sentence : text) (st : text * text)
  : text * text :=
  let '(formatted_text, paragraph) := st in
  let paragraph := paragraph ++ sentence ++ str " " in
  if ((Z.of_nat i + 1) mod 4 =? 0) || re_search_terminal sentence
  then (formatted_text ++ strip paragraph ++ [LF; LF], [])
  else (formatted_text, paragraph).

(** [for i, sentence in enumerate(sentences)], counting from [i]. *)
Fixpoint paragraph_loop (i : nat) (sentences : list text) (st : text * text)
  : text * text :=
  match sentences with
  | [] => st
  | sentence :: rest => paragraph_loop (S i) rest (paragraph_step i sentence st)
  end.

Definition paragraphs (sentences : list text) : text :=
  let '(formatted_text, paragraph) := paragraph_loop 0 sentences ([], []) in
  if paragraph is [] then formatted_text else formatted_text ++ strip paragraph.

Definition format_transcription (s : text) : text :=
  if s is [] then [] else
  let s := capitalize_first (strip s) in
  let sentences := map capitalize_first (re_split_sentences s) in
  let s := join (str " ") sentences in
  let wrapped_text := textwrap_fill s 80 in
  paragraphs (re_split_sentences wrapped_text).

(** ** The pipeline: [transcribe_mp3_to_text_and_srt] *)

(** What [recognizer.recognize_google] does on a chunk. *)
Inductive recognition :=
  | Transcript (t : text)           (* returns [t] *)
  | UnknownValueError               (* raises [sr.UnknownValueError] *)
  | RecognitionError (e : text).    (* raises something else, [str(e)] given *)

(** A chunk returned by [split_on_silence], as far as the pipeline looks at
    it: [len(chunk)] in milliseconds, whether exporting it to the scratch
    directory and reading it back raises, and what the recognizer answers. *)
Record chunk := Chunk {
  duration : Z;
  export_error : option text;
  recognized : recognition
}.

(** An element of [subtitle_entries]. *)
Record entry := Entry {
  index : Z;
  start : Z;
  end_ : Z;
  text_ : text
}.

(** The part of the outside world the function touches: the scratch
    directory [temp_audio_chunks] (absent, or the names of the files in it),
    the files outside of it by path, and the messages handed to
    [update_callback]. *)
Record world := World {
  temp_dir : option (gset text);
  files : gmap text text;
  log : list text
}.

(** What the outside world does to one call: the chunks obtained from the
    audio file (or the exception raised while loading it), and the
    exceptions raised by [os.mkdir], by [open(path, "w")] and by the clean-up
    of the scratch directory. *)
Record env := Env {
  audio : text + list chunk;
  mkdir_error : option text;
  open_error : text -> option text;
  cleanup_error : option text
}.

(** State and exceptions: a computation changes the world and returns a
    value or raises an exception, kept as its message. *)
Definition M (A : Type) : Type := world -> (text + A) * world.

Definition ret {A} (a : A) : M A := fun w => (inr a, w).

Definition raise {A} (e : text) : M A := fun w => (inl e, w).

Definition bind {A B} (m : M A) (k : A -> M B) : M B :=
  fun w =>
    match m w with
    | (inr a, w') => k a w'
    | (inl e, w') => (inl e, w')
    end.

Declare Scope pipeline_scope.
Delimit Scope pipeline_scope with pipeline.
Notation "'let*' x := m 'in' k" := (bind m (fun x => k))
  (at level 10, x binder, m at level 100, k at level 200) : pipeline_scope.
Notation "m >> k" := (bind m (fun _ => k))
  (at level 90, right associativity) : pipeline_scope.
Open Scope pipeline_scope.

Definition raise_if {A} (error : option text) (m : M A) : M A :=
  match error with
  | Some e => raise e
  | None => m
  end.

Definition update_callback (message : text) : M unit :=
  fun w => (inr tt, World (temp_dir w) (files w) (log w ++ [message])).

(** [open(path, "w")] followed by the writes that make up [content]. *)
Definition write_file (E : env) (path content : text) : M unit :=
  raise_if (open_error E path)
    (fun w => (inr tt, World (temp_dir w) (<[path := content]> (files w)) (log w))).

(** [if not os.path.isdir(temp_dir): os.mkdir(temp_dir)] *)
Definition make_temp_dir (E : env) : M unit :=
  fun w =>
    match temp_dir w with
    | Some _ => (inr tt, w)
    | None =>
        raise_if (mkdir_error E)
          (fun w => (inr tt, World (Some ∅) (files w) (log w))) w
    end.

(** [chunk.export(chunk_filename, format="wav")] and reading it back with
    [sr.AudioFile]. *)
Definition export (c : chunk) (chunk_filename : text) : M unit :=
  raise_if (export_error c)
    (fun w =>
       match temp_dir w with
       | Some names =>
           (inr tt, World (Some ({[chunk_filename]} ∪ names)) (files w) (log w))
       | None => (inl (str "No such file or directory"), w)
       end).

(** The clean-up: every file listed in the scratch directory is removed, then
    the directory. *)
Definition clean_up (E : env) : M unit :=
  raise_if (cleanup_error E)
    (fun w =>
       match temp_dir w with
       | Some _ => (inr tt, World None (files w) (log w))
       | None => (inl (str "No such file or directory"), w)
       end).

(** The local variables of the loop over the chunks. *)
Record locals := Locals {
  current_position : Z;
  segment_texts : list text;
  subtitle_entries : list entry
}.

Definition chunk_filename (i : nat) : text :=
  str "chunk" ++ str_of_int (Z.of_nat i) ++ str ".wav".

(** [f"Chunk {i+1}/{len(chunks)}: "] *)
Definition chunk_tag (n i : nat) : text :=
  str "Chunk " ++ str_of_int (Z.of_nat i + 1) ++ str "/"
  ++ str_of_int (Z.of_nat n) ++ str ": ".

(** The timing lines that open the loop body: [(start_time, end_time)] of
    the chunk; [end_time] is the next [current_position]. *)
Definition chunk_times (current_position : Z) (c : chunk) : Z * Z :=
  let start_time := current_position in
  let duration := duration c in
  let end_time := start_time + duration in
  (start_time, end_time).

(** The body of the loop, for chunk number [i] of [n]. *)
Definition process_chunk (n i : nat) (c : chunk) (l : locals) : M locals :=
  let '(start_time, end_time) := chunk_times (current_position l) c in
  let l := Locals end_time (segment_texts l) (subtitle_entries l) in
  export c (chunk_filename i) >>
  match recognized c with
  | Transcript t =>
      if t is [] then ret l
      else
        let l := Locals (current_position l) (segment_texts l ++ [t])
                   (subtitle_entries l
                    ++ [Entry (Z.of_nat i + 1) start_time end_time t]) in
        update_callback (chunk_tag n i ++ str "Transcribed successfully") >>
        ret l
  | UnknownValueError =>
      update_callback (chunk_tag n i ++ str "Could not understand audio") >>
      ret l
  | RecognitionError e =>
      update_callback (chunk_tag n i ++ str "Error - " ++ e) >> ret l
  end.

(** [for i, chunk in enumerate(chunks)], counting from [i]. *)
Fixpoint process_chunks (n i : nat) (chunks : list chunk) (l : locals)
  : M locals :=
  match chunks with
  | [] => ret l
  | c :: chunks' =>
      let* l := process_chunk n i c l in process_chunks n (S i) chunks' l
  end.

(** One block of the subtitle file. *)
Definition srt_entry (e : entry) : text :=
  str_of_int (index e) ++ [LF]
  ++ format_time (start e) ++ str " --> " ++ format_time (end_ e) ++ [LF]
  ++ text_ e ++ [LF; LF].

Definition srt_file (entries : list entry) : text :=
  concat (map srt_entry entries).

Definition no_speech : text := str "No speech detected in the audio file.".

Definition no_speech_srt : text :=
  str "1" ++ [LF] ++ str "00:00:00,000 --> 00:00:01,000" ++ [LF]
  ++ no_speech ++ [LF].

(** The [try] block. *)
Definition transcribe_body (E : env)
  (mp3_path output_txt_path output_srt_path language content_type : text)
  : M bool :=
  update_callback (str "Processing MP3 file: " ++ mp3_path) >>
  update_callback (str "Selected language: " ++ language) >>
  update_callback (str "Content type: " ++ content_type) >>
  update_callback (str "Loading audio file...") >>
  let* chunks := (match audio E with inl e => raise e | inr chunks => ret chunks end) in
  update_callback (str "Splitting audio on silence (optimized for "
                   ++ content_type ++ str ")...") >>
  make_temp_dir E >>
  update_callback (str "Processing " ++ str_of_int (Z.of_nat (length chunks))
                   ++ str " audio segments...") >>
  let* l := process_chunks (length chunks) 0 chunks (Locals 0 [] []) in
  (if segment_texts l is [] then
     write_file E output_txt_path no_speech >>
     write_file E output_srt_path no_speech_srt >>
     update_callback no_speech
   else
     let full_text := join (str " ") (segment_texts l) in
     let formatted_text := format_transcription full_text in
     write_file E output_txt_path formatted_text >>
     write_file E output_srt_path (srt_file (subtitle_entries l)) >>
     update_callback (str "SRT file saved to: " ++ output_srt_path) >>
     update_callback (str "Text file saved to: " ++ output_txt_path)) >>
  clean_up E >>
  update_callback (str "Transcription complete!") >>
  ret true.

(** The whole function: the [except] clause reports the exception and
    returns [False]. *)
Definition transcribe_mp3_to_text_and_srt (E : env)
  (mp3_path output_txt_path output_srt_path language content_type : text)
  (w : world) : bool * world :=
  match transcribe_body E mp3_path output_txt_path output_srt_path
          language content_type w with
  | (inr b, w') => (b, w')
  | (inl e, w') =>
      (false, World (temp_dir w') (files w')
                (log w' ++ [str "Error during transcription: " ++ e]))
  end.

(** ** [os.path] on POSIX, as used by [start_transcription] *)

(** [s.rfind(c) + 1]: one more than the index of the last [c] in [s], 0 when
    there is none. *)
Fixpoint after_last (c : ascii) (s : text) : nat :=
  match s with
  | [] => O
  | d :: s' =>
      match after_last c s' with
      | S j => S (S j)
      | O => if (d =? c)%char then 1%nat else O
      end
  end.

(** [posixpath.basename] *)
Definition basename (p : text) : text := drop (after_last "/" p) p.

(** [posixpath.splitext]: the extension starts at the last dot of the last
    component, unless only dots come before it in that component. *)
Definition splitext (p : text) : text * text :=
  let filenameIndex := after_last "/" p in
  match after_last "." p with
  | S dotIndex =>
      if (filenameIndex <=? dotIndex)%nat
         && existsb (fun c => negb (c =? ".")%char)
              (take (dotIndex - filenameIndex) (drop filenameIndex p))
      then (take dotIndex p, drop dotIndex p)
      else (p, [])
  | O => (p, [])
  end.

(** [posixpath.join(a, b)] *)
Definition path_join (a b : text) : text :=
  match b with
  | "/"%char :: _ => b
  | _ =>
      match last a with
      | None => b
      | Some c => if (c =? "/")%char then a ++ b else a ++ "/"%char :: b
      end
  end.

(** The two output paths computed by [start_transcription]. *)
Definition output_paths (input_file output_dir : text) : text * text :=
  let base_name := (splitext (basename input_file)).1 in
  (path_join output_dir (base_name ++ str ".txt"),
   path_join output_dir (base_name ++ str ".srt")).

(** ** Derived notions used in the statements *)

(** The intervals the loop computes, chunk after chunk, when it is entered
    with [current_position]. *)
Fixpoint timings (current_position : Z) (chunks : list chunk) : list (Z * Z) :=
  match chunks with
  | [] => []
  | c :: chunks' =>
      let '(start_time, end_time) := chunk_times current_position c in
      (start_time, end_time) :: timings end_time chunks'
  end.

Definition total_duration (chunks : list chunk) : Z :=
  foldr (fun c acc => duration c + acc) 0 chunks.

(** What a chunk adds to [segment_texts] and, as chunk number [i] placed at
    [times], to [subtitle_entries]. *)
Definition chunk_text (c : chunk) : option text :=
  match recognized c with
  | Transcript (a :: t) => Some (a :: t)
  | _ => None
  end.

Definition chunk_entry (i : nat) (times : Z * Z) (c : chunk) : option entry :=
  t ← chunk_text c; Some (Entry (Z.of_nat i + 1) times.1 times.2 t).

Definition texts_of (chunks : list chunk) : list text := omap chunk_text chunks.

Fixpoint entries_from (i : nat) (current_position : Z) (chunks : list chunk)
  : list entry :=
  match chunks with
  | [] => []
  | c :: chunks' =>
      let times := chunk_times current_position c in
      option_list (chunk_entry i times c) ++ entries_from (S i) times.2 chunks'
  end.

(** The chunk is recognized: the recognizer returns a non-empty text. *)
Definition yields_text (c : chunk) : Prop :=
  exists t : text, recognized c = Transcript t /\ t <> [].

(** The transcript and the subtitle file written for these chunks. *)
Definition artifacts (chunks : list chunk) : text * text :=
  if texts_of chunks is [] then (no_speech, no_speech_srt)
  else (format_transcription (join (str " ") (texts_of chunks)),
        srt_file (entries_from 0 0 chunks)).

(** A computation that never removes the scratch directory. *)
Definition keeps_dir {A} (m : M A) : Prop :=
  forall w : world, is_Some (temp_dir w) -> is_Some (temp_dir (m w).2).

(** No input or output operation raises. *)
Definition fault_free (E : env) (chunks : list chunk)
  (output_txt_path output_srt_path : text) : Prop :=
  audio E = inr chunks /\ mkdir_error E = None /\ cleanup_error E = None
  /\ open_error E output_txt_path = None /\ open_error E output_srt_path = None
  /\ Forall (fun c => export_error c = None) chunks.

(** Entry [e1] comes before entry [e2] on the time line and in the
    numbering. *)
Definition precedes (e1 e2 : entry) : Prop :=
  index e1 < index e2 /\ end_ e1 <= start e2.

(** A computation that leaves the file at [path] as it is. *)
Definition leaves_file {A} (path : text) (m : M A) : Prop :=
  forall w : world, files (m w).2 !! path = files w !! path.


(** The names of the chunk files numbered from [i]. *)
Definition chunk_filenames (i n : nat) : gset text :=
  list_to_set (map chunk_filename (seq i n)).

(** The number a decimal numeral stands for. *)
Definition decimal_value (s : text) : option Z :=
  option_map Z.of_int (NilZero.int_of_string (string_of_list_ascii s)).

(** The directory part of a joined path: [a] with a slash appended unless
    it is empty or ends with one. *)
Definition dir_prefix (a : text) : text :=
  match last a with
  | None => []
  | Some c => if (c =? "/")%char then a else a ++ ["/"%char]
  end.

(** ** Notions about text used in the statements *)

(** Only whitespace. *)
Definition blank (s : text) : Prop := Forall (fun c => isspace c = true) s.

(** The sentence ends at a terminal mark: its last character that is not
    whitespace is one of . ! ? *)
Definition ends_with_terminal (s : text) : Prop :=
  exists (pre : text) (c : ascii) (ws : text),
    s = pre ++ c :: ws /\ is_terminal c = true /\ blank ws.

(** The two triggers of a paragraph break after sentence number [i],
    counted from 0: it is a 4th sentence, or it ends at a terminal mark. *)
Definition break_after (i : nat) (sentence : text) : Prop :=
  (S i mod 4 = 0)%nat \/ ends_with_terminal sentence.

(** [str.split()] without argument: the maximal runs of characters that are
    not whitespace. *)
Fixpoint words (s : text) : list text :=
  match s with
  | [] => []
  | c :: s' =>
      if isspace c then words s'
      else
        match s' with
        | d :: _ => if isspace d then [c] :: words s' else push c (words s')
        | [] => [[c]]
        end
  end.

Definition starts_space (s : text) : bool :=
  match s with
  | c :: _ => isspace c
  | [] => false
  end.

(** Empty, or ending with a whitespace character. *)
Definition ends_space (s : text) : Prop :=
  s = [] \/ exists (s' : text) (w : ascii), s = s' ++ [w] /\ isspace w = true.

(** The only whitespace characters are plain spaces. *)
Definition plain_spaces (s : text) : Prop :=
  Forall (fun c => isspace c = true -> c = " "%char) s.

(** The text does not start with a lowercase letter. *)
Definition no_lower_start (s : text) : Prop :=
  forall c : ascii, head s = Some c -> islower c = false.

(** Already capitalized: no sentence starts with a lowercase letter. *)
Definition capitalized (s : text) : Prop :=
  Forall no_lower_start (re_split_sentences (strip s)).

(** Already wrapped, one paragraph: a single line of at most 80 characters,
    with no whitespace but plain spaces. *)
Definition one_line (s : text) : Prop :=
  plain_spaces s /\ (length s <= 80)%nat.

(** The last character is a terminal mark. *)
Definition ends_terminal (s : text) : Prop :=
  exists c : ascii, last s = Some c /\ is_terminal c = true.

(** Starts and ends with a character that is not whitespace. *)
Definition trimmed (s : text) : Prop :=
  starts_space s = false
  /\ exists c : ascii, last s = Some c /\ isspace c = false.

Fixpoint all_but_last (P : text -> Prop) (pieces : list text) : Prop :=
  match pieces with
  | [] | [_] => True
  | p :: pieces' => P p /\ all_but_last P pieces'
  end.


(** The characters that are not whitespace, in order. *)
Definition nonspace (s : text) : text :=
  List.filter (fun c => negb (isspace c)) s.

(** What the outer loop of [_wrap_chunks] consumes: chunks and characters. *)
Definition wrap_measure (chunks : list text) : nat :=
  (length chunks + length (concat chunks))%nat.

(** [s.split('\n')]: the lines of a text. *)
Fixpoint split_lines (s : text) : list text :=
  match s with
  | [] => [[]]
  | c :: s' => if (c =? LF)%char then [] :: split_lines s'
               else push c (split_lines s')
  end.

(** No stretch of [s] without a line feed is longer than [n]. *)
Definition narrow (n : nat) (s : text) : Prop :=
  forall a l b : text,
    s = a ++ l ++ b -> Forall (fun c => c <> LF) l -> (length l <= n)%nat.

(** The text built so far is empty or ends a line. *)
Definition closed_lines (n : nat) (ft : text) : Prop :=
  ft = [] \/ exists ft', ft = ft' ++ [LF] /\ narrow n ft'.

(** ** Sample inputs *)

(** Three chunks, the second one failing with a service error. *)
Definition sample_chunks : list chunk :=
  [Chunk 1200 None (Transcript (str "hello there."));
   Chunk 800 None (RecognitionError (str "quota exceeded"));
   Chunk 1500 None (Transcript (str "general kenobi"))].

(** Three chunks, none of them recognized. *)
Definition silent_chunks : list chunk :=
  [Chunk 1000 None UnknownValueError;
   Chunk 500 None (RecognitionError (str "quota exceeded"));
   Chunk 10 None (Transcript [])].

(** A world in which nothing raises, around the given chunks. *)
Definition quiet_env (chunks : list chunk) : env :=
  Env (inr chunks) None (fun _ => None) None.

Definition empty_world : world := World None ∅ [].

(** * Properties *)

(** ** Time formatting *)

Lemma time_fields_closed (ms : Z) :
  time_fields ms =
    (ms / 3600000, (ms / 60000) mod 60, (ms / 1000) mod 60, ms mod 1000).
Proof.
  unfold time_fields.
  rewrite !Z.div_div by lia.
  reflexivity.
Qed.

(** C8. The two sample values of the subtitle time stamp: 3661000 ms is
    printed as 01:01:01,000 and 500 ms as 00:00:00,500, zero-padded. *)
Theorem format_time_samples :
  format_time 3661000 = str "01:01:01,000"
  /\ format_time 500 = str "00:00:00,500".
Proof. split; vm_compute; reflexivity. Qed.

(** C5, as stated, fails at 90000000 ms (25 hours): the hours field is 25,
    not 25 modulo 24, and the stamp printed is 25:00:00,000. *)
Lemma hours_not_reduced_mod_24 :
  24 * 3600000 <= 90000000
  /\ hours_shown 90000000 <> (90000000 / 3600000) mod 24
  /\ format_time 90000000 = str "25:00:00,000".
Proof. repeat split; vm_compute; congruence. Qed.

(** C5, amended. The fields come from successive [divmod]: milliseconds
    modulo 1000, seconds modulo 60, minutes modulo 60, and the hours are the
    whole quotient, never reduced modulo 24; each field is printed
    zero-padded, hours and minutes and seconds to two digits, milliseconds to
    three. *)
Theorem format_time_decomposition (ms : Z) :
  time_fields ms =
    (ms / 3600000, (ms / 60000) mod 60, (ms / 1000) mod 60, ms mod 1000)
  /\ hours_shown ms = ms / 3600000
  /\ format_time ms =
       format_d 2 (ms / 3600000) ++ str ":"
       ++ format_d 2 ((ms / 60000) mod 60) ++ str ":"
       ++ format_d 2 ((ms / 1000) mod 60) ++ str ","
       ++ format_d 3 (ms mod 1000).
Proof.
  unfold hours_shown, format_time.
  rewrite time_fields_closed. auto.
Qed.

(** ** Timing *)

Lemma total_duration_app (xs ys : list chunk) :
  total_duration (xs ++ ys) = total_duration xs + total_duration ys.
Proof.
  induction xs as [|c xs IH]; simpl; [reflexivity|].
  rewrite IH. lia.
Qed.

Lemma total_duration_snoc (xs : list chunk) (c : chunk) :
  total_duration (xs ++ [c]) = total_duration xs + duration c.
Proof. rewrite total_duration_app. simpl. lia. Qed.

Lemma timings_length (pos : Z) (chunks : list chunk) :
  length (timings pos chunks) = length chunks.
Proof.
  revert pos. induction chunks as [|c chunks IH]; intros pos; simpl; auto.
Qed.

Lemma timings_lookup (chunks : list chunk) :
  forall (pos : Z) (i : nat) (c : chunk),
    chunks !! i = Some c ->
    timings pos chunks !! i =
      Some (pos + total_duration (take i chunks),
            pos + total_duration (take (S i) chunks)).
Proof.
  induction chunks as [|c0 chunks IH]; intros pos i c Hi; [done|].
  destruct i as [|i]; simpl.
  - f_equal. f_equal; lia.
  - rewrite (IH _ _ _ Hi). simpl. f_equal. f_equal; lia.
Qed.


(** ** The loop over the chunks *)

Lemma texts_of_app (xs ys : list chunk) :
  texts_of (xs ++ ys) = texts_of xs ++ texts_of ys.
Proof. apply omap_app. Qed.

Lemma entries_from_app (xs ys : list chunk) :
  forall (i : nat) (pos : Z),
    entries_from i pos (xs ++ ys) =
      entries_from i pos xs
      ++ entries_from (i + length xs) (pos + total_duration xs) ys.
Proof.
  induction xs as [|c xs IH]; intros i pos; simpl.
  - rewrite Nat.add_0_r, Z.add_0_r. reflexivity.
  - rewrite IH, <- app_assoc.
    replace (S i + length xs)%nat with (i + S (length xs))%nat by lia.
    replace (pos + duration c + total_duration xs)
      with (pos + (duration c + total_duration xs)) by lia.
    reflexivity.
Qed.


(** Every entry belongs to a chunk that yielded a text, carries that chunk's
    ordinal, and its interval is the chunk's cumulative one. *)
Lemma entries_from_lookup (chunks : list chunk) :
  forall (i : nat) (pos : Z) (e : entry),
    e ∈ entries_from i pos chunks <->
    exists (k : nat) (c : chunk),
      chunks !! k = Some c
      /\ chunk_entry (i + k)
           (pos + total_duration (take k chunks),
            pos + total_duration (take k chunks) + duration c) c = Some e.
Proof.
  induction chunks as [|c0 chunks IH]; intros i pos e; simpl.
  - split; [intros H; inversion H|intros (k & c & H & _); done].
  - rewrite elem_of_app, IH. split.
    + intros [H|(k & c & Hk & He)].
      * exists 0%nat, c0. split; [done|]. simpl.
        rewrite Nat.add_0_r, Z.add_0_r.
        destruct (chunk_entry i _ c0) as [e'|] eqn:E; simpl in H.
        -- apply list_elem_of_singleton in H. subst. reflexivity.
        -- inversion H.
      * exists (S k), c. split; [done|]. simpl.
        replace (i + S k)%nat with (S i + k)%nat by lia.
        rewrite <- He. f_equal. unfold chunk_times. simpl. f_equal; lia.
    + intros (k & c & Hk & He). destruct k as [|k].
      * left. simpl in Hk. injection Hk as ->. simpl in He.
        rewrite Nat.add_0_r, Z.add_0_r in He.
        unfold chunk_times. simpl. rewrite He. simpl. apply list_elem_of_here.
      * right. exists k, c. split; [done|]. simpl in He.
        replace (i + S k)%nat with (S i + k)%nat in He by lia.
        rewrite <- He. f_equal. unfold chunk_times. simpl. f_equal; lia.
Qed.

Lemma process_chunk_ok (n i : nat) (c : chunk) (l : locals) (w : world)
  (names : gset text) :
  export_error c = None ->
  temp_dir w = Some names ->
  exists w',
    process_chunk n i c l w =
      (inr (Locals (current_position l + duration c)
              (segment_texts l ++ option_list (chunk_text c))
              (subtitle_entries l
               ++ option_list
                    (chunk_entry i (chunk_times (current_position l) c) c))),
       w')
    /\ files w' = files w
    /\ temp_dir w' = Some ({[chunk_filename i]} ∪ names).
Proof.
  intros Hexp Hdir.
  unfold process_chunk, chunk_entry, chunk_text, chunk_times, export, bind,
    raise_if.
  rewrite Hexp, Hdir.
  destruct (recognized c) as [[|a t]| |e]; simpl; rewrite ?app_nil_r;
    eexists; split; try reflexivity; simpl; auto.
Qed.

Lemma process_chunks_ok (n : nat) (chunks : list chunk) :
  forall (i : nat) (l : locals) (w : world) (names : gset text),
    Forall (fun c => export_error c = None) chunks ->
    temp_dir w = Some names ->
    exists w',
      process_chunks n i chunks l w =
        (inr (Locals (current_position l + total_duration chunks)
                (segment_texts l ++ texts_of chunks)
                (subtitle_entries l
                 ++ entries_from i (current_position l) chunks)),
         w')
      /\ files w' = files w
      /\ is_Some (temp_dir w').
Proof.
  induction chunks as [|c chunks IH]; intros i l w names Hexp Hdir.
  - exists w. simpl. unfold ret. rewrite Z.add_0_r, !app_nil_r.
    destruct l; simpl. rewrite Hdir. eauto.
  - apply Forall_cons in Hexp as [Hc Hexp].
    destruct (process_chunk_ok n i c l w names Hc Hdir) as (w1 & E1 & F1 & D1).
    match type of E1 with
    | _ = (inr ?l1, _) =>
        destruct (IH (S i) l1 w1 _ Hexp D1) as (w2 & E2 & F2 & D2)
    end.
    exists w2. simpl. unfold bind at 1. rewrite E1, E2. simpl.
    split; [|split; [congruence|exact D2]].
    f_equal. unfold texts_of. simpl.
    destruct (chunk_text c); simpl; rewrite <- ?app_assoc; simpl;
      f_equal; f_equal; lia.
Qed.

(** The loop keeps to these intervals: it ends with the cursor at the total
    duration, and every subtitle entry carries the ordinal and the interval
    of its chunk. *)
Lemma loop_keeps_timings (n : nat) (chunks : list chunk) (w w' : world)
  (names : gset text) (l : locals) :
  Forall (fun c => export_error c = None) chunks ->
  temp_dir w = Some names ->
  process_chunks n 0 chunks (Locals 0 [] []) w = (inr l, w') ->
  current_position l = total_duration chunks
  /\ forall e : entry,
       e ∈ subtitle_entries l ->
       exists k : nat,
         index e = Z.of_nat k + 1
         /\ timings 0 chunks !! k = Some (start e, end_ e).
Proof.
  intros Hexp Hdir Hrun.
  destruct (process_chunks_ok n chunks 0%nat (Locals 0 [] []) w names Hexp Hdir)
    as (w2 & E & _ & _).
  rewrite Hrun in E. injection E as -> _. simpl.
  split; [reflexivity|]. intros e He.
  apply entries_from_lookup in He as (k & c & Hk & He).
  exists k. rewrite (timings_lookup chunks 0 k c Hk).
  unfold chunk_entry in He. destruct (chunk_text c) as [t|]; [|discriminate].
  simpl in He. injection He as <-. simpl.
  rewrite (take_S_r _ _ _ Hk), total_duration_snoc. auto.
Qed.

(** C2. For every sequence of chunks, of durations d_1..d_N, the timing
    lines of the loop give chunk i the interval from the sum of the durations
    before it to that sum plus its own duration: one interval per chunk
    (none for N = 0), the first one starting at 0, each one starting where
    the previous one ended. The loop keeps to these intervals: it leaves
    the cursor at the total duration, and every subtitle entry carries the
    ordinal and the interval of its chunk. *)
Theorem timings_cumulative (chunks : list chunk) :
  length (timings 0 chunks) = length chunks
  /\ (forall (i : nat) (c : chunk),
        chunks !! i = Some c ->
        timings 0 chunks !! i =
          Some (total_duration (take i chunks),
                total_duration (take i chunks) + duration c))
  /\ (forall iv : Z * Z, timings 0 chunks !! 0%nat = Some iv -> iv.1 = 0)
  /\ (forall (i : nat) (iv iv' : Z * Z),
        timings 0 chunks !! i = Some iv ->
        timings 0 chunks !! S i = Some iv' ->
        iv'.1 = iv.2)
  /\ (forall (n : nat) (w w' : world) (names : gset text) (l : locals),
        Forall (fun c => export_error c = None) chunks ->
        temp_dir w = Some names ->
        process_chunks n 0 chunks (Locals 0 [] []) w = (inr l, w') ->
        current_position l = total_duration chunks
        /\ forall e : entry,
             e ∈ subtitle_entries l ->
             exists k : nat,
               index e = Z.of_nat k + 1
               /\ timings 0 chunks !! k = Some (start e, end_ e)).
Proof.
  split; [apply timings_length|].
  assert (Hlook : forall (i : nat) (c : chunk),
            chunks !! i = Some c ->
            timings 0 chunks !! i =
              Some (total_duration (take i chunks),
                    total_duration (take i chunks) + duration c)).
  { intros i c Hi. rewrite (timings_lookup _ 0 i c Hi).
    rewrite (take_S_r _ _ _ Hi), total_duration_snoc.
    reflexivity. }
  split; [exact Hlook|]. split; [|split].
  - intros iv H0.
    destruct (chunks !! 0%nat) as [c|] eqn:Hc.
    + rewrite (Hlook _ _ Hc) in H0. injection H0 as <-. reflexivity.
    + apply lookup_ge_None in Hc. apply lookup_lt_Some in H0.
      rewrite timings_length in H0. lia.
  - intros i iv iv' Hi HSi.
    destruct (chunks !! i) as [c|] eqn:Hc;
      [|apply lookup_ge_None in Hc; apply lookup_lt_Some in Hi;
        rewrite timings_length in Hi; lia].
    destruct (chunks !! S i) as [c'|] eqn:Hc';
      [|apply lookup_ge_None in Hc'; apply lookup_lt_Some in HSi;
        rewrite timings_length in HSi; lia].
    rewrite (Hlook _ _ Hc) in Hi. rewrite (Hlook _ _ Hc') in HSi.
    injection Hi as <-. injection HSi as <-. simpl.
    rewrite (take_S_r _ _ _ Hc), total_duration_snoc. reflexivity.
  - intros n w w' names l. apply loop_keeps_timings.
Qed.

(** ** Runs of the pipeline *)

Lemma bind_ok {A B} (m : M A) (k : A -> M B) (w w' : world) (a : A) :
  m w = (inr a, w') -> bind m k w = k a w'.
Proof. intros H. unfold bind. rewrite H. reflexivity. Qed.

Lemma bind_raise {A B} (m : M A) (k : A -> M B) (w w' : world) (e : text) :
  m w = (inl e, w') -> bind m k w = (inl e, w').
Proof. intros H. unfold bind. rewrite H. reflexivity. Qed.

Lemma make_temp_dir_ok (E : env) (w : world) :
  mkdir_error E = None ->
  exists w',
    make_temp_dir E w = (inr tt, w')
    /\ is_Some (temp_dir w') /\ files w' = files w.
Proof.
  intros H. unfold make_temp_dir, raise_if.
  destruct (temp_dir w) eqn:Hd.
  - exists w. rewrite Hd. eauto.
  - rewrite H. eexists. simpl. eauto.
Qed.

Lemma write_file_ok (E : env) (path content : text) (w : world) :
  open_error E path = None ->
  write_file E path content w =
    (inr tt, World (temp_dir w) (<[path := content]> (files w)) (log w)).
Proof. intros H. unfold write_file, raise_if. rewrite H. reflexivity. Qed.

Lemma clean_up_ok (E : env) (w : world) :
  cleanup_error E = None ->
  is_Some (temp_dir w) ->
  clean_up E w = (inr tt, World None (files w) (log w)).
Proof.
  intros H [names Hd]. unfold clean_up, raise_if. rewrite H, Hd. reflexivity.
Qed.

Ltac callback := erewrite bind_ok by (unfold update_callback; reflexivity).

Lemma transcribe_ok (E : env) (chunks : list chunk)
  (mp3_path output_txt_path output_srt_path language content_type : text)
  (w : world) :
  fault_free E chunks output_txt_path output_srt_path ->
  exists w',
    transcribe_mp3_to_text_and_srt E mp3_path output_txt_path output_srt_path
      language content_type w = (true, w')
    /\ temp_dir w' = None
    /\ files w' =
         <[output_srt_path := (artifacts chunks).2]>
           (<[output_txt_path := (artifacts chunks).1]> (files w)).
Proof.
  intros (Haudio & Hmkdir & Hclean & Htxt & Hsrt & Hexp).
  unfold transcribe_mp3_to_text_and_srt, transcribe_body.
  do 4 callback.
  rewrite Haudio. erewrite bind_ok by reflexivity. callback.
  match goal with |- context [bind (make_temp_dir E) _ ?w0] =>
    destruct (make_temp_dir_ok E w0 Hmkdir) as (w1 & E1 & [names D1] & F1)
  end.
  erewrite bind_ok by exact E1. callback.
  match goal with |- context [bind (process_chunks ?n 0 chunks ?l) _ ?w0] =>
    destruct (process_chunks_ok n chunks 0%nat l w0 names Hexp D1)
      as (w2 & E2 & F2 & D2)
  end.
  erewrite bind_ok by exact E2.
  cbn [segment_texts subtitle_entries current_position app].
  unfold artifacts.
  destruct (texts_of chunks) as [|t ts] eqn:Ht.
  - erewrite bind_ok; cycle 1.
    { erewrite bind_ok by (apply write_file_ok; exact Htxt).
      erewrite bind_ok by (apply write_file_ok; exact Hsrt).
      reflexivity. }
    erewrite bind_ok by (apply clean_up_ok; [exact Hclean|exact D2]).
    callback. unfold ret. eexists. split; [reflexivity|]. simpl.
    split; [reflexivity|]. rewrite F2, F1. reflexivity.
  - erewrite bind_ok; cycle 1.
    { erewrite bind_ok by (apply write_file_ok; exact Htxt).
      erewrite bind_ok by (apply write_file_ok; exact Hsrt).
      callback. reflexivity. }
    erewrite bind_ok by (apply clean_up_ok; [exact Hclean|exact D2]).
    callback. unfold ret. eexists. split; [reflexivity|]. simpl.
    split; [reflexivity|]. rewrite F2, F1. reflexivity.
Qed.

Lemma chunk_text_None (c : chunk) : chunk_text c = None <-> ~ yields_text c.
Proof.
  unfold chunk_text, yields_text. split.
  - intros H (t & Ht & Hne). rewrite Ht in H. destruct t; done.
  - intros H. destruct (recognized c) as [[|a t]| |e]; try reflexivity.
    exfalso. apply H. exists (a :: t). done.
Qed.


Lemma texts_of_nil (chunks : list chunk) :
  Forall (fun c => ~ yields_text c) chunks -> texts_of chunks = [].
Proof.
  induction 1 as [|c chunks Hc _ IH]; [reflexivity|].
  unfold texts_of in *. simpl.
  apply chunk_text_None in Hc. rewrite Hc. exact IH.
Qed.

(** C3. When no chunk is recognized (every one is not understood, fails, or
    comes back empty, or there is no chunk at all) and no file operation
    raises, the run succeeds, the transcript file holds exactly the sentence
    No speech detected in the audio file. and the subtitle file exactly one
    block: index 1, 00:00:00,000 to 00:00:01,000, the same sentence. *)
Theorem no_speech_run (E : env) (chunks : list chunk)
  (mp3_path output_txt_path output_srt_path language content_type : text)
  (w : world) :
  fault_free E chunks output_txt_path output_srt_path ->
  output_txt_path <> output_srt_path ->
  Forall (fun c => ~ yields_text c) chunks ->
  let r := transcribe_mp3_to_text_and_srt E mp3_path output_txt_path
             output_srt_path language content_type w in
  r.1 = true
  /\ files r.2 !! output_txt_path
     = Some (str "No speech detected in the audio file.")
  /\ files r.2 !! output_srt_path
     = Some (str "1" ++ [LF] ++ format_time 0 ++ str " --> "
             ++ format_time 1000 ++ [LF]
             ++ str "No speech detected in the audio file." ++ [LF])
  /\ format_time 0 = str "00:00:00,000"
  /\ format_time 1000 = str "00:00:01,000".
Proof.
  intros Hff Hne Hnone r.
  destruct (transcribe_ok E chunks mp3_path output_txt_path output_srt_path
              language content_type w Hff) as (w' & Hr & _ & Hfiles).
  subst r. rewrite Hr. simpl. rewrite Hfiles.
  unfold artifacts. rewrite (texts_of_nil _ Hnone). simpl.
  split; [reflexivity|]. split.
  - rewrite lookup_insert_ne by congruence. rewrite lookup_insert_eq.
    reflexivity.
  - rewrite lookup_insert_eq. repeat split; vm_compute; reflexivity.
Qed.



(** C10. A chunk for which the recognizer returns the empty string adds no
    text and no subtitle entry, as a chunk that is not understood does, but
    its duration moves the time cursor: the chunks after it get the very
    entries, with the same intervals and ordinals, that they get when the
    chunk comes back with a text. *)
Theorem empty_transcript_chunk :
  forall (n : nat) (pre post : list chunk) (d : Z) (t : text)
    (w : world) (names : gset text),
    Forall (fun c => export_error c = None) (pre ++ post) ->
    temp_dir w = Some names ->
    t <> [] ->
    exists (l_empty l_text : locals) (w_empty w_text w_unknown : world),
      let before := entries_from 0 0 pre in
      let after := entries_from (S (length pre)) (total_duration pre + d) post in
      process_chunks n 0 (pre ++ Chunk d None (Transcript []) :: post)
        (Locals 0 [] []) w = (inr l_empty, w_empty)
      /\ process_chunks n 0 (pre ++ Chunk d None UnknownValueError :: post)
           (Locals 0 [] []) w = (inr l_empty, w_unknown)
      /\ process_chunks n 0 (pre ++ Chunk d None (Transcript t) :: post)
           (Locals 0 [] []) w = (inr l_text, w_text)
      /\ segment_texts l_empty = texts_of pre ++ texts_of post
      /\ segment_texts l_text = texts_of pre ++ [t] ++ texts_of post
      /\ subtitle_entries l_empty = before ++ after
      /\ subtitle_entries l_text =
           before
           ++ [Entry (Z.of_nat (length pre) + 1) (total_duration pre)
                 (total_duration pre + d) t]
           ++ after
      /\ current_position l_empty = total_duration pre + d + total_duration post
      /\ current_position l_text = current_position l_empty.
Proof.
  intros n pre post d t w names Hexp Hdir Ht.
  apply Forall_app in Hexp as [Hpre Hpost].
  assert (He : Forall (fun c => export_error c = None)
                 (pre ++ Chunk d None (Transcript []) :: post)).
  { apply Forall_app. split; [done|]. apply Forall_cons. done. }
  assert (Hx : Forall (fun c => export_error c = None)
                 (pre ++ Chunk d None (Transcript t) :: post)).
  { apply Forall_app. split; [done|]. apply Forall_cons. done. }
  destruct (process_chunks_ok n _ 0%nat (Locals 0 [] []) w names He Hdir)
    as (w_empty & E1 & _ & _).
  assert (Hu : Forall (fun c => export_error c = None)
                 (pre ++ Chunk d None UnknownValueError :: post)).
  { apply Forall_app. split; [done|]. apply Forall_cons. done. }
  destruct (process_chunks_ok n _ 0%nat (Locals 0 [] []) w names Hx Hdir)
    as (w_text & E2 & _ & _).
  destruct (process_chunks_ok n _ 0%nat (Locals 0 [] []) w names Hu Hdir)
    as (w_unknown & E3 & _ & _).
  exists (Locals (0 + total_duration (pre ++ Chunk d None (Transcript []) :: post))
            ([] ++ texts_of (pre ++ Chunk d None (Transcript []) :: post))
            ([] ++ entries_from 0 0 (pre ++ Chunk d None (Transcript []) :: post))).
  eexists. exists w_empty, w_text, w_unknown. cbv zeta.
  split; [exact E1|]. split.
  { rewrite E3. f_equal. f_equal.
    rewrite !texts_of_app, !entries_from_app, !total_duration_app.
    reflexivity. }
  split; [exact E2|]. simpl.
  rewrite !texts_of_app, !entries_from_app, !total_duration_app. simpl.
  unfold texts_of at 2 5. simpl.
  unfold chunk_entry, chunk_text. simpl.
  destruct t as [|a t]; [done|]. simpl.
  repeat split; try reflexivity; lia.
Qed.

(** ** Runs that fail *)

Lemma keeps_dir_bind {A B} (m : M A) (k : A -> M B) :
  keeps_dir m -> (forall a, keeps_dir (k a)) -> keeps_dir (bind m k).
Proof.
  intros Hm Hk w Hw. unfold bind. specialize (Hm w Hw).
  destruct (m w) as [[e|a] w1]; simpl in *; [exact Hm|].
  apply Hk. exact Hm.
Qed.

Lemma keeps_dir_ret {A} (a : A) : keeps_dir (ret a).
Proof. intros w Hw. exact Hw. Qed.

Lemma keeps_dir_callback (message : text) : keeps_dir (update_callback message).
Proof. intros w Hw. exact Hw. Qed.

Lemma keeps_dir_write_file (E : env) (path content : text) :
  keeps_dir (write_file E path content).
Proof.
  intros w Hw. unfold write_file, raise_if.
  destruct (open_error E path); exact Hw.
Qed.

Lemma keeps_dir_export (c : chunk) (name : text) : keeps_dir (export c name).
Proof.
  intros w [names Hw]. unfold export, raise_if.
  destruct (export_error c); simpl; rewrite Hw; simpl; eauto.
Qed.

Lemma keeps_dir_process_chunk (n i : nat) (c : chunk) (l : locals) :
  keeps_dir (process_chunk n i c l).
Proof.
  unfold process_chunk, chunk_times.
  apply keeps_dir_bind; [apply keeps_dir_export|]. intros _.
  destruct (recognized c) as [[|a t]| |e];
    repeat first [apply keeps_dir_ret | apply keeps_dir_callback
                 | apply keeps_dir_bind; [|intros _]].
Qed.

Lemma keeps_dir_process_chunks (n : nat) (chunks : list chunk) :
  forall (i : nat) (l : locals), keeps_dir (process_chunks n i chunks l).
Proof.
  induction chunks as [|c chunks IH]; intros i l; simpl.
  - apply keeps_dir_ret.
  - apply keeps_dir_bind; [apply keeps_dir_process_chunk|]. intros l'. apply IH.
Qed.

Lemma failed_run_keeps_temp_dir (E : env) (chunks : list chunk)
  (mp3_path output_txt_path output_srt_path language content_type : text)
  (w : world) :
  audio E = inr chunks ->
  mkdir_error E = None ->
  let r := transcribe_mp3_to_text_and_srt E mp3_path output_txt_path
             output_srt_path language content_type w in
  r.1 = false -> is_Some (temp_dir r.2).
Proof.
  intros Haudio Hmkdir. cbv zeta.
  unfold transcribe_mp3_to_text_and_srt, transcribe_body.
  do 4 callback.
  rewrite Haudio. erewrite bind_ok by reflexivity. callback.
  match goal with |- context [bind (make_temp_dir E) _ ?w0] =>
    destruct (make_temp_dir_ok E w0 Hmkdir) as (w1 & E1 & D1 & _)
  end.
  erewrite bind_ok by exact E1. callback.
  match goal with |- context [bind (process_chunks ?n 0 chunks ?l) ?k ?w0] =>
    pose proof (keeps_dir_process_chunks n chunks 0%nat l w0 D1) as D2;
    destruct (process_chunks n 0 chunks l w0) as [[e|l2] w2] eqn:E2
  end.
  - erewrite bind_raise by exact E2. simpl. intros _. exact D2.
  - erewrite bind_ok by exact E2.
    match goal with |- context [bind ?m ?k w2] =>
      assert (D3 : keeps_dir m);
      [|specialize (D3 w2 D2); destruct (m w2) as [[e|[]] w3] eqn:E3]
    end.
    + destruct (segment_texts l2);
        repeat first [apply keeps_dir_callback | apply keeps_dir_write_file
                     | apply keeps_dir_bind; [|intros _]].
    + erewrite bind_raise by exact E3. simpl. intros _. exact D3.
    + erewrite bind_ok by exact E3. simpl in D3.
      unfold bind at 1, clean_up, raise_if.
      destruct (cleanup_error E) as [e|]; simpl; [intros _; exact D3|].
      destruct D3 as [names D3]. rewrite D3. simpl. discriminate.
Qed.

(** C4, at a failing input: one chunk, recognized, and a transcript path
    whose directory is missing, so that [open] raises. The run returns
    [False] and the scratch directory is still there, with the chunk file in
    it: the clean-up is written after the outputs, inside the [try] block,
    and the [except] clause does not repeat it. *)
Theorem temp_dir_left_behind :
  let E := Env (inr [Chunk 1200 None (Transcript (str "hello"))]) None
             (fun path => if bool_decide (path = str "/missing/a.txt")
                          then Some (str "No such file or directory")
                          else None)
             None in
  let r := transcribe_mp3_to_text_and_srt E (str "a.mp3")
             (str "/missing/a.txt") (str "/missing/a.srt")
             (str "en-US") (str "talk") (World None ∅ []) in
  r.1 = false
  /\ temp_dir r.2 = Some {[ str "chunk0.wav" ]}
  /\ files r.2 = ∅.
Proof. cbv zeta. split; [reflexivity|split; reflexivity]. Qed.


(** ** Whitespace and the two patterns *)


Lemma spaces_to_end_blank (s : text) : spaces_to_end s = true <-> blank s.
Proof.
  unfold blank. induction s as [|c s IH]; simpl.
  - split; [constructor|reflexivity].
  - rewrite orb_true_iff, andb_true_iff, IH, Forall_cons. split.
    + intros [H|H]; [|exact H].
      destruct s; [|discriminate]. apply Ascii.eqb_eq in H. subst c.
      split; [reflexivity|constructor].
    + intros H. right. exact H.
Qed.

Lemma re_search_terminal_spec (s : text) :
  re_search_terminal s = true <-> ends_with_terminal s.
Proof.
  unfold ends_with_terminal. induction s as [|c s IH]; simpl.
  - split; [discriminate|]. intros (pre & c & ws & H & _). destruct pre; discriminate.
  - rewrite orb_true_iff, andb_true_iff, spaces_to_end_blank, IH. split.
    + intros [[Hc Hs]|(pre & c' & ws & -> & Hc & Hws)].
      * exists [], c, s. auto.
      * exists (c :: pre), c', ws. auto.
    + intros (pre & c' & ws & H & Hc & Hws). destruct pre as [|a pre].
      * injection H as -> ->. left. auto.
      * injection H as -> ->. right. exists pre, c', ws. auto.
Qed.

Lemma paragraph_loop_snoc (sentences : list text) (s : text) :
  forall (i : nat) (st : text * text),
    paragraph_loop i (sentences ++ [s]) st =
      paragraph_step (i + length sentences) s (paragraph_loop i sentences st).
Proof.
  induction sentences as [|s0 sentences IH]; intros i st; simpl.
  - rewrite Nat.add_0_r. reflexivity.
  - rewrite IH. f_equal. lia.
Qed.

Lemma fourth_sentence (i : nat) :
  ((Z.of_nat i + 1) mod 4 =? 0) = true <-> (S i mod 4 = 0)%nat.
Proof.
  rewrite Z.eqb_eq.
  replace (Z.of_nat i + 1) with (Z.of_nat (S i)) by lia.
  change 4 with (Z.of_nat 4). rewrite <- Nat2Z.inj_mod. lia.
Qed.

(** C6. In the paragraphing pass, for every list of sentences and every
    position in it: when the sentence is a 4th one or ends at a terminal
    mark (one of . ! ? followed by whitespace only), the loop emits the
    pending paragraph, stripped, and a paragraph break; when neither holds
    it emits nothing and keeps the sentence pending. The two triggers form
    one disjunction. *)
Theorem paragraph_break_triggers (sentences : list text) (i : nat) (s : text) :
  sentences !! i = Some s ->
  let before := paragraph_loop 0 (take i sentences) ([], []) in
  let after := paragraph_loop 0 (take (S i) sentences) ([], []) in
  (break_after i s ->
   after = (before.1 ++ strip (before.2 ++ s ++ str " ") ++ [LF; LF], []))
  /\ (~ break_after i s -> after = (before.1, before.2 ++ s ++ str " ")).
Proof.
  intros Hi before after. subst before after.
  rewrite (take_S_r _ _ _ Hi), paragraph_loop_snoc. simpl.
  assert (Hlen : length (take i sentences) = i).
  { apply length_take_le. apply lookup_lt_Some in Hi. lia. }
  rewrite Hlen.
  destruct (paragraph_loop 0 (take i sentences) ([], [])) as [ft p].
  unfold paragraph_step, break_after. simpl.
  destruct (((Z.of_nat i + 1) mod 4 =? 0) || re_search_terminal s) eqn:Hb.
  - split; [reflexivity|]. intros Hn. exfalso. apply Hn.
    apply orb_true_iff in Hb as [Hb|Hb].
    + left. apply fourth_sentence. exact Hb.
    + right. apply re_search_terminal_spec. exact Hb.
  - split; [|reflexivity]. intros [H4|Ht]; exfalso.
    + apply fourth_sentence in H4. rewrite H4 in Hb. discriminate.
    + apply re_search_terminal_spec in Ht. rewrite Ht, orb_true_r in Hb.
      discriminate.
Qed.


Lemma blank_app (a b : text) : blank (a ++ b) <-> blank a /\ blank b.
Proof. apply Forall_app. Qed.

Lemma blank_rev (a : text) : blank (rev a) <-> blank a.
Proof.
  unfold blank. rewrite !Forall_forall. split; intros H c Hc; apply H.
  - apply list_elem_of_In, in_rev, list_elem_of_In. rewrite rev_involutive. exact Hc.
  - apply list_elem_of_In, in_rev, list_elem_of_In in Hc. exact Hc.
Qed.

(** [lstrip] removes a blank prefix, and what is left does not start with
    whitespace. *)
Lemma lstrip_spec (s : text) :
  exists ws : text,
    blank ws /\ s = ws ++ lstrip s
    /\ (forall c, head (lstrip s) = Some c -> isspace c = false).
Proof.
  induction s as [|c s (ws & Hws & Hs & Hh)]; simpl.
  - exists []. repeat split; [constructor|discriminate].
  - destruct (isspace c) eqn:Hc.
    + exists (c :: ws). split; [constructor; assumption|]. split; [|exact Hh].
      simpl. f_equal. exact Hs.
    + exists []. split; [constructor|]. split; [reflexivity|].
      simpl. intros c' [= <-]. exact Hc.
Qed.

Lemma rstrip_spec (s : text) :
  exists ws : text,
    blank ws /\ s = rstrip s ++ ws
    /\ (forall c, last (rstrip s) = Some c -> isspace c = false).
Proof.
  unfold rstrip. destruct (lstrip_spec (rev s)) as (ws & Hws & Hs & Hh).
  exists (rev ws). split; [apply blank_rev; exact Hws|]. split.
  - rewrite <- rev_app_distr, <- Hs, rev_involutive. reflexivity.
  - intros c Hc. apply Hh. rewrite <- Hc.
    rewrite <- (rev_involutive (lstrip (rev s))) at 1.
    generalize (rev (lstrip (rev s))). intros l.
    destruct l as [|l x _] using rev_ind; [reflexivity|].
    rewrite rev_app_distr, last_snoc. reflexivity.
Qed.

Lemma strip_spec (s : text) :
  exists ws1 ws2 : text,
    blank ws1 /\ blank ws2 /\ s = ws1 ++ strip s ++ ws2
    /\ (forall c, last (strip s) = Some c -> isspace c = false).
Proof.
  unfold strip.
  destruct (lstrip_spec s) as (ws1 & H1 & Hs1 & _).
  destruct (rstrip_spec (lstrip s)) as (ws2 & H2 & Hs2 & Hl).
  exists ws1, ws2. repeat split; try assumption.
  rewrite <- Hs2. exact Hs1.
Qed.

Lemma ends_with_terminal_app (a b : text) :
  ends_with_terminal (a ++ b) <->
  ends_with_terminal b \/ (blank b /\ ends_with_terminal a).
Proof.
  unfold ends_with_terminal. split.
  - intros (pre & c & ws & H & Hc & Hws).
    revert pre H. induction a as [|x a IH]; intros pre H.
    + left. exists pre, c, ws. auto.
    + destruct pre as [|y pre]; simpl in H.
      * injection H as <- <-. right. apply blank_app in Hws as [Ha Hb].
        split; [exact Hb|]. exists [], x, a. auto.
      * injection H as <- H.
        destruct (IH pre H) as [Hl|(Hb & pre' & c' & ws' & -> & Hc' & Hws')].
        -- left. exact Hl.
        -- right. split; [exact Hb|]. exists (x :: pre'), c', ws'. auto.
  - intros [(pre & c & ws & -> & Hc & Hws)|(Hb & pre & c & ws & -> & Hc & Hws)].
    + exists (a ++ pre), c, ws. rewrite <- app_assoc. auto.
    + exists pre, c, (ws ++ b). rewrite <- app_assoc. simpl.
      repeat split; auto. apply blank_app. auto.
Qed.

Lemma terminal_not_space (c : ascii) : is_terminal c = true -> isspace c = false.
Proof.
  unfold is_terminal. rewrite !orb_true_iff, !Ascii.eqb_eq.
  intros [[->| ->]| ->]; reflexivity.
Qed.

Lemma ends_with_terminal_snoc_space (s : text) :
  ends_with_terminal (s ++ str " ") <-> ends_with_terminal s.
Proof.
  rewrite ends_with_terminal_app. split.
  - intros [(pre & c & ws & H & Hc & _)|[_ H]]; [|exact H].
    destruct pre as [|? [|? ?]]; try discriminate.
    injection H as <- _. discriminate.
  - intros H. right. split; [|exact H]. repeat constructor.
Qed.

(** What the paragraphing loop keeps true: the text emitted so far is empty
    or ends with a paragraph break, and the pending paragraph does not end at
    a terminal mark. *)
Lemma paragraph_loop_invariant (sentences : list text) :
  forall (i : nat) (ft p : text),
    (ft = [] \/ exists ft', ft = ft' ++ [LF; LF]) ->
    ~ ends_with_terminal p ->
    let st := paragraph_loop i sentences (ft, p) in
    (st.1 = [] \/ exists ft', st.1 = ft' ++ [LF; LF])
    /\ ~ ends_with_terminal st.2.
Proof.
  induction sentences as [|s sentences IH]; intros i ft p Hft Hp; simpl; [auto|].
  unfold paragraph_step.
  destruct (((Z.of_nat i + 1) mod 4 =? 0) || re_search_terminal s) eqn:Hb.
  - apply IH.
    + right. eexists. rewrite app_assoc. reflexivity.
    + intros (pre & c & ws & H & _). destruct pre; discriminate.
  - apply IH; [exact Hft|].
    apply orb_false_iff in Hb as [_ Hb].
    rewrite ends_with_terminal_app, ends_with_terminal_snoc_space.
    rewrite <- re_search_terminal_spec, Hb. intros [H|[_ H]]; [discriminate|].
    exact (Hp H).
Qed.

Lemma paragraphs_not_no_speech (sentences : list text) :
  paragraphs sentences <> no_speech.
Proof.
  unfold paragraphs.
  pose proof (paragraph_loop_invariant sentences 0 [] []) as H.
  destruct (paragraph_loop 0 sentences ([], [])) as [ft p]. simpl in H.
  destruct H as [Hft Hp].
  { left. reflexivity. }
  { intros (pre & c & ws & H & _). destruct pre; discriminate. }
  assert (Hft' : ft <> no_speech).
  { destruct Hft as [->|[ft' ->]]; [discriminate|].
    intros H. apply (f_equal last) in H.
    rewrite (last_app_cons _ _ LF), last_cons_cons, last_singleton in H.
    vm_compute in H. discriminate. }
  destruct p as [|a p]; [exact Hft'|].
  destruct (strip_spec (a :: p)) as (ws1 & ws2 & H1 & H2 & Hs & _).
  intros H.
  destruct (last (strip (a :: p))) as [c|] eqn:Hl.
  - apply last_Some in Hl as [q Hq].
    assert (Hc : c = "."%char).
    { apply (f_equal last) in H. rewrite Hq, app_assoc, last_snoc in H.
      vm_compute in H. congruence. }
    subst c. apply Hp. rewrite Hs, Hq.
    exists (ws1 ++ q), "."%char, ws2. rewrite <- !app_assoc. auto.
  - apply last_None in Hl. rewrite Hl, app_nil_r in H. exact (Hft' H).
Qed.

Lemma texts_of_nil_inv (chunks : list chunk) :
  texts_of chunks = [] -> Forall (fun c => ~ yields_text c) chunks.
Proof.
  induction chunks as [|c chunks IH]; [constructor|].
  unfold texts_of. simpl. destruct (chunk_text c) eqn:Hc; [discriminate|].
  intros H. constructor; [apply chunk_text_None; exact Hc|exact (IH H)].
Qed.

(** C9. The formatter maps the empty string to the empty string, and no
    input at all to the sentence No speech detected in the audio file.; in a
    run where nothing raises, the transcript file holds that sentence exactly
    when no chunk was recognized, that is, when the pipeline took its
    no-speech branch. *)
Theorem format_transcription_never_no_speech :
  format_transcription [] = []
  /\ (forall s : text, format_transcription s <> no_speech)
  /\ (forall (E : env) (chunks : list chunk)
        (mp3_path output_txt_path output_srt_path language content_type : text)
        (w : world),
        fault_free E chunks output_txt_path output_srt_path ->
        output_txt_path <> output_srt_path ->
        let r := transcribe_mp3_to_text_and_srt E mp3_path output_txt_path
                   output_srt_path language content_type w in
        files r.2 !! output_txt_path = Some no_speech
        <-> Forall (fun c => ~ yields_text c) chunks).
Proof.
  assert (Hnever : forall s : text, format_transcription s <> no_speech).
  { intros s. unfold format_transcription.
    destruct s; [discriminate|]. apply paragraphs_not_no_speech. }
  split; [reflexivity|]. split; [exact Hnever|].
  intros E chunks mp3_path output_txt_path output_srt_path language
    content_type w Hff Hne r.
  destruct (transcribe_ok E chunks mp3_path output_txt_path output_srt_path
              language content_type w Hff) as (w' & Hr & _ & Hfiles).
  subst r. rewrite Hr. simpl. rewrite Hfiles.
  rewrite lookup_insert_ne by congruence. rewrite lookup_insert_eq.
  unfold artifacts. split.
  - destruct (texts_of chunks) eqn:Ht; [intros _; apply texts_of_nil_inv, Ht|].
    simpl. intros [= H]. exfalso. exact (Hnever _ H).
  - intros H. rewrite (texts_of_nil _ H). reflexivity.
Qed.


(** ** Words *)

Lemma words_blank (ws : text) : blank ws -> words ws = [].
Proof.
  induction 1 as [|c ws Hc _ IH]; [reflexivity|]. simpl. rewrite Hc. exact IH.
Qed.

Lemma words_blank_app (ws s : text) : blank ws -> words (ws ++ s) = words s.
Proof.
  induction 1 as [|c ws Hc _ IH]; [reflexivity|]. simpl. rewrite Hc. exact IH.
Qed.

Lemma words_cons_nonempty (c : ascii) (s : text) :
  isspace c = false -> words (c :: s) <> [].
Proof.
  intros Hc. simpl. rewrite Hc. destruct s as [|d s]; [discriminate|].
  destruct (isspace d); [discriminate|].
  unfold push. destruct (words (d :: s)); discriminate.
Qed.

Lemma push_app (c : ascii) (xs ys : list text) :
  xs <> [] -> push c (xs ++ ys) = push c xs ++ ys.
Proof. destruct xs; [done|reflexivity]. Qed.

(** A whitespace character separates the words on its two sides. *)
Lemma words_app_space (a b : text) (w : ascii) :
  isspace w = true -> words (a ++ w :: b) = words a ++ words b.
Proof.
  intros Hw. induction a as [|c a IH]; simpl.
  - rewrite Hw. reflexivity.
  - destruct (isspace c) eqn:Hc; [exact IH|].
    destruct a as [|d a]; simpl.
    + rewrite Hw. reflexivity.
    + simpl in IH. destruct (isspace d) eqn:Hd.
      * rewrite IH. reflexivity.
      * rewrite IH. apply push_app.
        pose proof (words_cons_nonempty d a Hd) as Hne. simpl in Hne.
        rewrite Hd in Hne. exact Hne.
Qed.

Lemma words_app_blank (a b ws : text) :
  blank ws -> ws <> [] -> words (a ++ ws ++ b) = words a ++ words b.
Proof.
  intros Hws Hne. destruct Hws as [|w ws Hw Hws]; [done|].
  simpl. rewrite words_app_space by exact Hw.
  rewrite words_blank_app by exact Hws. reflexivity.
Qed.

Lemma words_snoc_blank (s ws : text) : blank ws -> words (s ++ ws) = words s.
Proof.
  intros Hws. destruct Hws as [|w ws Hw Hws]; [rewrite app_nil_r; reflexivity|].
  rewrite words_app_space by exact Hw.
  rewrite (words_blank ws Hws), app_nil_r. reflexivity.
Qed.

Lemma words_strip (s : text) : words (strip s) = words s.
Proof.
  destruct (strip_spec s) as (ws1 & ws2 & H1 & H2 & Hs & _).
  rewrite Hs at 2. rewrite words_blank_app by exact H1.
  rewrite words_snoc_blank by exact H2. reflexivity.
Qed.

Lemma words_join (sep : text) (pieces : list text) :
  blank sep -> sep <> [] ->
  words (join sep pieces) = concat (map words pieces).
Proof.
  intros Hsep Hne. induction pieces as [|p pieces IH]; [reflexivity|].
  destruct pieces as [|q pieces].
  - simpl. rewrite app_nil_r. reflexivity.
  - change (join sep (p :: q :: pieces)) with (p ++ sep ++ join sep (q :: pieces)).
    rewrite words_app_blank by assumption. rewrite IH. reflexivity.
Qed.


(** ** Sentences *)

Lemma re_split_from_nonempty (st : split_state) (s : text) :
  re_split_from st s <> [].
Proof.
  revert st. induction s as [|c s IH]; intros st; simpl; [discriminate|].
  assert (Hpush : forall st', push c (re_split_from st' s) <> []).
  { intros st'. unfold push. destruct (re_split_from st' s); discriminate. }
  destruct st; try destruct (isspace c); auto; discriminate.
Qed.

Lemma join_push (sep : text) (c : ascii) (pieces : list text) :
  pieces <> [] -> join sep (push c pieces) = c :: join sep pieces.
Proof. destruct pieces as [|p [|q pieces]]; [done|reflexivity|reflexivity]. Qed.

Lemma join_cons (sep p : text) (pieces : list text) :
  pieces <> [] -> join sep (p :: pieces) = p ++ sep ++ join sep pieces.
Proof. destruct pieces; [done|reflexivity]. Qed.

(** How the sentences of [c :: s], joined again, come from those of [s]. *)
Lemma join_re_split_cons (sep : text) (st : split_state) (c : ascii) (s : text) :
  join sep (re_split_from st (c :: s)) =
    match st with
    | InMatch =>
        if isspace c then join sep (re_split_from InMatch s)
        else c :: join sep (re_split_from (state_after c) s)
    | AfterTerminal =>
        if isspace c then sep ++ join sep (re_split_from InMatch s)
        else c :: join sep (re_split_from (state_after c) s)
    | Elsewhere => c :: join sep (re_split_from (state_after c) s)
    end.
Proof.
  destruct st; simpl; try destruct (isspace c);
    rewrite ?join_push by apply re_split_from_nonempty; try reflexivity.
  rewrite join_cons by apply re_split_from_nonempty. reflexivity.
Qed.

Lemma re_split_in_match_blank (ws s : text) :
  blank ws -> re_split_from InMatch (ws ++ s) = re_split_from InMatch s.
Proof.
  induction 1 as [|w ws Hw _ IH]; [reflexivity|]. simpl. rewrite Hw. exact IH.
Qed.

Section Rejoin.
Variable sep : text.
Hypothesis sep_blank : blank sep.
Hypothesis sep_nonempty : sep <> [].

Lemma re_split_after_terminal_sep (s : text) :
  re_split_from AfterTerminal (sep ++ s) = [] :: re_split_from InMatch s.
Proof.
  destruct sep_blank as [|w ws Hw Hws]; [done|].
  simpl. rewrite Hw. rewrite re_split_in_match_blank by exact Hws.
  reflexivity.
Qed.

(** Splitting the joined sentences gives the sentences back. *)
Lemma re_split_join (s : text) :
  forall st : split_state,
    re_split_from st (join sep (re_split_from st s)) = re_split_from st s.
Proof.
  induction s as [|c s IH]; intros st; [destruct st; reflexivity|].
  rewrite join_re_split_cons.
  destruct st; simpl; try destruct (isspace c) eqn:Hc; simpl; rewrite ?Hc;
    rewrite ?IH; try reflexivity.
  rewrite re_split_after_terminal_sep, IH. reflexivity.
Qed.

Lemma words_cons_similar (c : ascii) (a b : text) :
  words a = words b -> starts_space a = starts_space b ->
  words (c :: a) = words (c :: b).
Proof.
  intros Hw Hs. simpl. destruct (isspace c); [exact Hw|].
  destruct a as [|d a], b as [|e b]; simpl in Hs.
  - reflexivity.
  - exfalso. symmetry in Hs, Hw. exact (words_cons_nonempty e b Hs Hw).
  - exfalso. exact (words_cons_nonempty d a Hs Hw).
  - rewrite <- Hs. destruct (isspace d); rewrite Hw; reflexivity.
Qed.

(** Joining the sentences changes whitespace only. *)
Lemma words_join_re_split (s : text) :
  forall st : split_state,
    words (join sep (re_split_from st s)) = words s
    /\ (st <> InMatch ->
        starts_space (join sep (re_split_from st s)) = starts_space s).
Proof.
  induction s as [|c s IH]; intros st; [destruct st; done|].
  rewrite join_re_split_cons.
  assert (Hpush : words (c :: join sep (re_split_from (state_after c) s))
                  = words (c :: s)
                  /\ starts_space (c :: join sep (re_split_from (state_after c) s))
                     = starts_space (c :: s)).
  { split; [|reflexivity].
    destruct (IH (state_after c)) as [Hw Hs].
    apply words_cons_similar; [exact Hw|]. apply Hs.
    unfold state_after. destruct (is_terminal c); discriminate. }
  destruct st; try destruct (isspace c) eqn:Hc; try (split; tauto).
  - split; [|done]. simpl. rewrite Hc. apply IH.
  - split.
    + rewrite words_blank_app by exact sep_blank. simpl. rewrite Hc. apply IH.
    + intros _. simpl. rewrite Hc.
      destruct sep_blank as [|w ws Hw Hws]; [done|]. exact Hw.
Qed.

Lemma last_join_re_split (s : text) (c : ascii) :
  isspace c = false ->
  forall st : split_state,
    last s = Some c -> last (join sep (re_split_from st s)) = Some c.
Proof.
  intros Hc. induction s as [|d s IH]; intros st Hl; [discriminate|].
  rewrite join_re_split_cons.
  assert (Hpush : last (d :: join sep (re_split_from (state_after d) s)) = Some c).
  { destruct s as [|e s]; [exact Hl|].
    rewrite last_cons, (IH _ Hl). reflexivity. }
  assert (Hs : isspace d = true -> last s = Some c).
  { intros Hd. destruct s as [|e s]; [|exact Hl].
    injection Hl as ->. congruence. }
  destruct st; try destruct (isspace d) eqn:Hd; try exact Hpush.
  - apply IH, Hs. reflexivity.
  - rewrite last_app, (IH _ (Hs eq_refl)). reflexivity.
Qed.

Lemma Forall_join_re_split (P : ascii -> Prop) (s : text) :
  Forall P sep -> Forall P s ->
  forall st : split_state, Forall P (join sep (re_split_from st s)).
Proof.
  intros Hsep. induction 1 as [|c s Hc Hs IH]; intros st.
  - destruct st; constructor.
  - rewrite join_re_split_cons.
    destruct st; try destruct (isspace c); auto using Forall_app_2.
Qed.

Lemma length_join_re_split (s : text) :
  (length sep <= 1)%nat ->
  forall st : split_state,
    (length (join sep (re_split_from st s)) <= length s)%nat.
Proof.
  intros Hsep. induction s as [|c s IH]; intros st.
  - destruct st; simpl; lia.
  - rewrite join_re_split_cons.
    destruct st; try destruct (isspace c); rewrite ?length_app; simpl;
      try (specialize (IH InMatch); lia);
      try (specialize (IH (state_after c)); lia).
Qed.
End Rejoin.


(** ** Paragraphs *)

Lemma words_app_ends_space (a b : text) :
  ends_space a -> words (a ++ b) = words a ++ words b.
Proof.
  intros [->|(s' & w & -> & Hw)]; [reflexivity|].
  rewrite <- app_assoc. simpl. rewrite words_app_space by exact Hw.
  rewrite words_snoc_blank by (repeat constructor; exact Hw). reflexivity.
Qed.

Lemma ends_space_snoc (a s : text) (w : ascii) :
  isspace w = true -> ends_space (a ++ s ++ [w]).
Proof. intros Hw. right. exists (a ++ s), w. rewrite <- app_assoc. auto. Qed.

Lemma paragraph_loop_words (sentences : list text) :
  forall (i : nat) (ft p : text),
    ends_space ft -> ends_space p ->
    let st := paragraph_loop i sentences (ft, p) in
    words st.1 ++ words st.2 = words ft ++ words p ++ concat (map words sentences)
    /\ ends_space st.1 /\ ends_space st.2.
Proof.
  induction sentences as [|s sentences IH]; intros i ft p Hft Hp;
    cbn [paragraph_loop concat map].
  - simpl. rewrite app_nil_r. auto.
  - assert (Hw : words (p ++ s ++ str " ") = words p ++ words s).
    { rewrite words_app_ends_space by exact Hp.
      rewrite words_snoc_blank by (repeat constructor). reflexivity. }
    unfold paragraph_step.
    destruct (((Z.of_nat i + 1) mod 4 =? 0) || re_search_terminal s).
    + destruct (IH (S i) (ft ++ strip (p ++ s ++ str " ") ++ [LF; LF]) [])
        as (H1 & H2 & H3).
      { pose proof (ends_space_snoc ft (strip (p ++ s ++ str " ") ++ [LF]) LF
                      eq_refl) as He.
        rewrite <- app_assoc in He. exact He. }
      { left. reflexivity. }
      split; [|auto]. rewrite H1.
      rewrite words_app_ends_space by exact Hft.
      rewrite words_snoc_blank by (repeat constructor).
      rewrite words_strip, Hw. simpl. rewrite <- !app_assoc. reflexivity.
    + destruct (IH (S i) ft (p ++ s ++ str " ")) as (H1 & H2 & H3).
      { exact Hft. }
      { apply (ends_space_snoc p s " "%char). reflexivity. }
      split; [|auto]. rewrite H1, Hw, <- !app_assoc. reflexivity.
Qed.

(** The paragraphing pass changes whitespace only. *)
Lemma words_paragraphs (sentences : list text) :
  words (paragraphs sentences) = concat (map words sentences).
Proof.
  unfold paragraphs.
  destruct (paragraph_loop_words sentences 0 [] []) as (H & Hft & _);
    [left; reflexivity|left; reflexivity|].
  destruct (paragraph_loop 0 sentences ([], [])) as [ft p]. simpl in *.
  destruct p as [|a p].
  - rewrite app_nil_r in H. exact H.
  - rewrite words_app_ends_space by exact Hft. rewrite words_strip. exact H.
Qed.

(** ** Wrapping a short line *)

Lemma run_length_pos (p : ascii -> bool) (c : ascii) (s : text) :
  p c = true -> (1 <= run_length p (c :: s))%nat.
Proof. intros H. simpl. rewrite H. lia. Qed.

Lemma word_length_pos (before : text) (c : ascii) (rest : text) :
  (1 <= word_length before (c :: rest))%nat.
Proof. simpl. repeat match goal with |- context [if ?b then _ else _] => destruct b end; lia. Qed.

Lemma chunk_length_pos (before : text) (c : ascii) (rest : text) :
  (1 <= chunk_length before (c :: rest))%nat.
Proof.
  unfold chunk_length. destruct (wrap_space c) eqn:Hc.
  - apply run_length_pos. exact Hc.
  - destruct before as [|b before]; [apply word_length_pos|].
    destruct (em_dash (c :: rest)) as [k|] eqn:Hk; [|apply word_length_pos].
    destruct (is_word_punct b); [|apply word_length_pos].
    unfold em_dash in Hk. cbv zeta in Hk.
    match type of Hk with (if ?b then _ else _) = _ =>
      destruct b eqn:Hcond; [|discriminate]
    end.
    injection Hk as <-. apply andb_true_iff in Hcond as [H2 _].
    apply Nat.leb_le in H2. simpl in H2. lia.
Qed.

(** The chunks tile the text, and none is empty. *)
Lemma split_from_tiles (fuel : nat) :
  forall before rest : text,
    (length rest <= fuel)%nat ->
    concat (split_from fuel before rest) = rest
    /\ Forall (fun chunk => chunk <> []) (split_from fuel before rest).
Proof.
  induction fuel as [|fuel IH]; intros before rest Hlen.
  - destruct rest; [|simpl in Hlen; lia]. split; [reflexivity|constructor].
  - destruct rest as [|c rest]; [split; [reflexivity|constructor]|].
    pose proof (chunk_length_pos before c rest) as Hpos.
    cbn [split_from].
    set (n := chunk_length before (c :: rest)) in *.
    destruct (IH (rev (take n (c :: rest)) ++ before) (drop n (c :: rest)))
      as [Hcat Hne].
    { rewrite length_drop. simpl in *. lia. }
    split.
    + simpl concat. rewrite Hcat. apply take_drop.
    + constructor; [|exact Hne].
      destruct n; [lia|]. discriminate.
Qed.

Lemma take_fitting_all (width : nat) (chunks : list text) :
  forall cur_len : nat,
    (cur_len + length (concat chunks) <= width)%nat ->
    take_fitting width cur_len chunks
    = (chunks, (cur_len + length (concat chunks))%nat, []).
Proof.
  induction chunks as [|chunk chunks IH]; intros cur_len Hfit;
    cbn [take_fitting concat] in *.
  - simpl. rewrite Nat.add_0_r. reflexivity.
  - rewrite length_app in *.
    destruct (Nat.leb_spec (cur_len + length chunk) width) as [_|]; [|lia].
    rewrite IH by lia. rewrite Nat.add_assoc. reflexivity.
Qed.

Lemma expandtabs_plain (tabsize : nat) (s : text) :
  plain_spaces s -> forall col : nat, expandtabs_from tabsize col s = s.
Proof.
  induction 1 as [|c s Hc _ IH]; intros col; [reflexivity|]. simpl.
  destruct (c =? TAB)%char eqn:Ht.
  - apply Ascii.eqb_eq in Ht. subst c. discriminate (Hc eq_refl).
  - destruct ((c =? LF)%char || (c =? CR)%char) eqn:Hl.
    + apply orb_true_iff in Hl as [Hl|Hl]; apply Ascii.eqb_eq in Hl; subst c;
        discriminate (Hc eq_refl).
    + rewrite IH. reflexivity.
Qed.

Lemma wrap_space_isspace (c : ascii) : wrap_space c = true -> isspace c = true.
Proof.
  unfold wrap_space, isspace.
  rewrite !orb_true_iff, !andb_true_iff, !N.leb_le, N.eqb_eq. lia.
Qed.

Lemma munge_whitespace_plain (s : text) :
  plain_spaces s -> munge_whitespace s = s.
Proof.
  intros H. unfold munge_whitespace, expandtabs.
  rewrite expandtabs_plain by exact H.
  induction H as [|c s Hc _ IH]; [reflexivity|]. simpl. rewrite IH.
  destruct (wrap_space c) eqn:Hw; [|reflexivity].
  rewrite (Hc (wrap_space_isspace c Hw)). reflexivity.
Qed.

Lemma strip_nonempty (s : text) (c : ascii) :
  last s = Some c -> isspace c = false -> strip s <> [].
Proof.
  intros Hl Hc Hs.
  destruct (strip_spec s) as (ws1 & ws2 & H1 & H2 & Heq & _).
  rewrite Hs in Heq. simpl in Heq.
  assert (Hb : blank s) by (rewrite Heq; apply blank_app; auto).
  apply last_Some in Hl as [s' ->]. apply blank_app in Hb as [_ Hb].
  apply Forall_cons in Hb as [Hb _]. congruence.
Qed.

Lemma wrap_line_all (width : nat) (chunks : list text) (ch : text) :
  (length (concat chunks) <= width)%nat ->
  last chunks = Some ch -> is_blank ch = false ->
  wrap_line width false chunks = (Some (concat chunks), []).
Proof.
  intros Hfit Hlast Hblank. unfold wrap_line.
  destruct chunks as [|chunk chunks]; [discriminate|].
  rewrite andb_false_r, take_fitting_all by (simpl; exact Hfit).
  rewrite Hlast, Hblank. reflexivity.
Qed.

Lemma wrap_chunks_all (width : nat) (chunks : list text) (ch : text) :
  (length (concat chunks) <= width)%nat ->
  last chunks = Some ch -> is_blank ch = false ->
  wrap_chunks width chunks = [concat chunks].
Proof.
  intros Hfit Hlast Hblank. unfold wrap_chunks, wrap_fuel.
  cbn [wrap_chunks_from].
  rewrite (wrap_line_all width chunks ch Hfit Hlast Hblank).
  destruct chunks as [|chunk chunks]; [discriminate|].
  destruct (length (chunk :: chunks) + length (concat (chunk :: chunks)))%nat;
    reflexivity.
Qed.

(** A line of at most [width] characters, with no whitespace but plain
    spaces and none at its end, is left as it is. *)
Lemma textwrap_fill_short (s : text) (width : nat) :
  (length s <= width)%nat ->
  plain_spaces s ->
  (forall c, last s = Some c -> isspace c = false) ->
  textwrap_fill s width = s.
Proof.
  intros Hlen Hplain Hlast. unfold textwrap_fill, split_chunks.
  rewrite munge_whitespace_plain by exact Hplain.
  destruct (split_from_tiles (length s) [] s (le_n _)) as [Hcat Hne].
  destruct (last (split_from (length s) [] s)) as [ch|] eqn:Hch.
  - rewrite (wrap_chunks_all width _ ch); [simpl; exact Hcat| |exact Hch|].
    + rewrite Hcat. exact Hlen.
    + apply last_Some in Hch as [cs Hcs].
      rewrite Hcs in Hne, Hcat. apply Forall_app in Hne as [_ Hne].
      apply Forall_cons in Hne as [Hne _].
      destruct (last ch) as [c|] eqn:Hc; [|apply last_None in Hc; done].
      unfold is_blank. apply bool_decide_eq_false.
      apply (strip_nonempty ch c Hc). apply Hlast.
      rewrite <- Hcat, concat_app. simpl. rewrite app_nil_r.
      apply last_Some in Hc as [ch' ->]. rewrite app_assoc. apply last_snoc.
  - apply last_None in Hch. rewrite Hch in *. simpl in Hcat. subst s.
    reflexivity.
Qed.


(** ** The shape of the sentences *)

Lemma all_but_last_cons (P : text -> Prop) (p : text) (pieces : list text) :
  pieces <> [] ->
  all_but_last P (p :: pieces) <-> P p /\ all_but_last P pieces.
Proof. destruct pieces; [done|reflexivity]. Qed.

(** Every sentence but the last ends with a terminal mark. *)
Lemma re_split_ends (s : text) :
  forall st : split_state,
    match re_split_from st s with
    | p :: q :: pieces =>
        (ends_terminal p \/ (st = AfterTerminal /\ p = []))
        /\ all_but_last ends_terminal (q :: pieces)
    | _ => True
    end.
Proof.
  induction s as [|c s IH]; intros st; [destruct st; exact I|].
  assert (Hpush : forall st',
            st' = state_after c ->
            match push c (re_split_from st' s) with
            | p :: q :: pieces =>
                ends_terminal p /\ all_but_last ends_terminal (q :: pieces)
            | _ => True
            end).
  { intros st' ->. specialize (IH (state_after c)).
    destruct (re_split_from (state_after c) s) as [|p [|q pieces]];
      [exact I|exact I|].
    destruct IH as [[(d & Hd & Ht)|[Hst ->]] Hrest]; (split; [|exact Hrest]).
    - exists d. split; [|exact Ht]. destruct p; [discriminate|exact Hd].
    - exists c. split; [reflexivity|]. unfold state_after in Hst.
      destruct (is_terminal c); [reflexivity|discriminate]. }
  assert (Hpush' : forall st',
            st' = state_after c ->
            match push c (re_split_from st' s) with
            | p :: q :: pieces =>
                (ends_terminal p \/ (st = AfterTerminal /\ p = []))
                /\ all_but_last ends_terminal (q :: pieces)
            | _ => True
            end).
  { intros st' Hst. specialize (Hpush st' Hst).
    destruct (push c (re_split_from st' s)) as [|p [|q pieces]]; tauto. }
  assert (Hin : all_but_last ends_terminal (re_split_from InMatch s)).
  { specialize (IH InMatch).
    destruct (re_split_from InMatch s) as [|p [|q pieces]]; [exact I|exact I|].
    destruct IH as [[H|[H _]] Hrest]; [|discriminate]. split; assumption. }
  destruct st; cbn [re_split_from]; try destruct (isspace c);
    try (apply Hpush'; reflexivity).
  - apply IH.
  - pose proof (re_split_from_nonempty InMatch s) as Hne.
    destruct (re_split_from InMatch s) as [|q pieces]; [done|].
    split; [right; done|exact Hin].
Qed.

(** Every sentence but the first is empty or starts with a character that
    is not whitespace. *)
Lemma re_split_starts (s : text) :
  forall st : split_state,
    Forall (fun p => starts_space p = false) (tail (re_split_from st s))
    /\ (st = InMatch ->
        Forall (fun p => starts_space p = false) (re_split_from st s)).
Proof.
  induction s as [|c s IH]; intros st.
  - destruct st; simpl; split; auto.
  - assert (Hpush : forall st',
              Forall (fun p => starts_space p = false)
                (tail (push c (re_split_from st' s)))).
    { intros st'. destruct (IH st') as [Ht _].
      destruct (re_split_from st' s); [constructor|exact Ht]. }
    destruct (IH InMatch) as [Ht Hin]. specialize (Hin eq_refl).
    destruct st; simpl; try destruct (isspace c) eqn:Hc; try (split; auto; done).
    + split; [apply Hpush|]. intros _.
      specialize (Hpush (state_after c)).
      destruct (re_split_from (state_after c) s) as [|p pieces];
        constructor; simpl in *; auto.
Qed.

(** The last sentence ends where the text ends. *)
Lemma re_split_last (s : text) (c : ascii) :
  isspace c = false ->
  forall st : split_state,
    last s = Some c ->
    exists p : text, last (re_split_from st s) = Some p /\ last p = Some c.
Proof.
  intros Hc. induction s as [|d s IH]; intros st Hl; [discriminate|].
  assert (Hpush : forall st',
            exists p, last (push d (re_split_from st' s)) = Some p
                      /\ last p = Some c).
  { intros st'. destruct s as [|e s].
    - destruct st'; simpl; exists [d]; auto.
    - destruct (IH st') as (p & Hp & Hpc); [exact Hl|].
      destruct (re_split_from st' (e :: s)) as [|p0 [|q pieces]];
        [discriminate| |].
      + injection Hp as ->. exists (d :: p). split; [reflexivity|].
        destruct p; [discriminate|exact Hpc].
      + exists p. split; [exact Hp|exact Hpc]. }
  assert (Hs : isspace d = true -> last s = Some c).
  { intros Hd. destruct s as [|e s]; [|exact Hl].
    injection Hl as ->. congruence. }
  destruct st; simpl; try destruct (isspace d) eqn:Hd; auto.
  destruct (IH InMatch (Hs eq_refl)) as (p & Hp & Hpc).
  exists p. split; [|exact Hpc].
  destruct (re_split_from InMatch s); [discriminate|exact Hp].
Qed.

Lemma trimmed_strip (s : text) : trimmed s -> strip (s ++ str " ") = s.
Proof.
  intros [Hs (c & Hl & Hc)]. unfold strip.
  assert (H1 : lstrip (s ++ str " ") = s ++ str " ").
  { destruct s as [|d s]; [discriminate|]. simpl in *. rewrite Hs. reflexivity. }
  rewrite H1. unfold rstrip. rewrite rev_app_distr. simpl.
  apply last_Some in Hl as [s' ->]. rewrite rev_app_distr. simpl.
  rewrite Hc. simpl. rewrite rev_involutive. reflexivity.
Qed.

Lemma strip_trimmed (ws1 s ws2 : text) :
  blank ws1 -> blank ws2 -> trimmed s -> strip (ws1 ++ s ++ ws2) = s.
Proof.
  intros H1 H2 [Hs (c & Hl & Hc)]. unfold strip.
  assert (Hl1 : lstrip (ws1 ++ s ++ ws2) = s ++ ws2).
  { induction H1 as [|w ws1 Hw _ IH]; simpl.
    - destruct s as [|d s]; [discriminate|]. simpl in *. rewrite Hs. reflexivity.
    - rewrite Hw. exact IH. }
  rewrite Hl1. unfold rstrip. rewrite rev_app_distr.
  assert (Hl2 : forall r, lstrip (rev ws2 ++ r) = lstrip r).
  { apply blank_rev in H2. induction H2 as [|w ws Hw _ IH]; intros r; simpl.
    - reflexivity.
    - rewrite Hw. apply IH. }
  rewrite Hl2. apply last_Some in Hl as [s' ->]. rewrite rev_app_distr. simpl.
  rewrite Hc. simpl. rewrite rev_involutive. reflexivity.
Qed.

Lemma ends_terminal_search (s : text) :
  ends_terminal s -> re_search_terminal s = true.
Proof.
  intros (c & Hl & Hc). apply re_search_terminal_spec.
  apply last_Some in Hl as [s' ->]. exists s', c, []. repeat split; auto.
  constructor.
Qed.

(** When all sentences are trimmed and all but the last end with a terminal
    mark, every sentence becomes a paragraph of its own. *)
Lemma paragraph_loop_trimmed (sentences : list text) :
  forall (i : nat) (ft : text),
    sentences <> [] ->
    Forall trimmed sentences ->
    all_but_last ends_terminal sentences ->
    exists tail : text,
      blank tail
      /\ (let '(ft', p) := paragraph_loop i sentences (ft, []) in
          if p is [] then ft' else ft' ++ strip p)
         = ft ++ join [LF; LF] sentences ++ tail.
Proof.
  induction sentences as [|s sentences IH]; intros i ft Hne Htr Hend; [done|].
  apply Forall_cons in Htr as [Hs Htr].
  cbn [paragraph_loop]. unfold paragraph_step. cbn [app].
  destruct sentences as [|q sentences].
  - cbn [paragraph_loop join].
    destruct (((Z.of_nat i + 1) mod 4 =? 0) || re_search_terminal s).
    + exists [LF; LF]. split; [repeat constructor|].
      rewrite trimmed_strip by exact Hs. reflexivity.
    + exists []. split; [constructor|].
      destruct (s ++ str " ") eqn:E; [destruct s; discriminate|].
      rewrite <- E, trimmed_strip by exact Hs. rewrite app_nil_r. reflexivity.
  - destruct Hend as [He Hend].
    rewrite (ends_terminal_search s He), orb_true_r.
    destruct (IH (S i) (ft ++ strip (s ++ str " ") ++ [LF; LF]))
      as (tail & Htail & Heq); [done|exact Htr|exact Hend|].
    exists tail. split; [exact Htail|]. rewrite Heq.
    rewrite trimmed_strip by exact Hs.
    rewrite (join_cons _ s (q :: sentences)) by done.
    rewrite <- !app_assoc. reflexivity.
Qed.

(** ** The formatter on a short line *)

Lemma all_but_last_Forall (P Q : text -> Prop) (pieces : list text) :
  all_but_last P pieces ->
  (forall p, P p -> Q p) ->
  (forall p, last pieces = Some p -> Q p) ->
  Forall Q pieces.
Proof.
  intros Hall HPQ Hlast. induction pieces as [|p pieces IH]; [constructor|].
  destruct pieces as [|q pieces].
  - constructor; [apply Hlast; reflexivity|constructor].
  - destruct Hall as [Hp Hall]. constructor; [apply HPQ, Hp|].
    apply IH; [exact Hall|]. intros p' Hp'. apply Hlast. exact Hp'.
Qed.

Lemma last_join (sep : text) (pieces : list text) (p : text) (c : ascii) :
  last pieces = Some p -> last p = Some c -> last (join sep pieces) = Some c.
Proof.
  intros Hp Hc. induction pieces as [|q pieces IH]; [discriminate|].
  destruct pieces as [|q' pieces].
  - injection Hp as ->. exact Hc.
  - rewrite join_cons by done. rewrite !last_app.
    rewrite IH by exact Hp. reflexivity.
Qed.

Lemma capitalize_first_id (s : text) : no_lower_start s -> capitalize_first s = s.
Proof.
  intros H. destruct s as [|c s]; [reflexivity|]. simpl.
  rewrite (H c eq_refl). reflexivity.
Qed.

Lemma map_capitalize_first_id (pieces : list text) :
  Forall no_lower_start pieces -> map capitalize_first pieces = pieces.
Proof.
  induction 1 as [|p pieces Hp _ IH]; [reflexivity|]. simpl.
  rewrite IH, capitalize_first_id by exact Hp. reflexivity.
Qed.

Lemma re_split_sentences_head (c : ascii) (s : text) :
  exists (p : text) (pieces : list text),
    re_split_sentences (c :: s) = (c :: p) :: pieces.
Proof.
  unfold re_split_sentences. simpl.
  pose proof (re_split_from_nonempty (state_after c) s) as Hne.
  destruct (re_split_from (state_after c) s) as [|p pieces]; [done|].
  exists p, pieces. reflexivity.
Qed.

Lemma strip_facts (s : text) :
  (length (strip s) <= length s)%nat
  /\ (plain_spaces s -> plain_spaces (strip s))
  /\ (forall c, last (strip s) = Some c -> isspace c = false)
  /\ starts_space (strip s) = false
  /\ words (strip s) = words s.
Proof.
  destruct (strip_spec s) as (ws1 & ws2 & H1 & H2 & Hs & Hl).
  repeat split.
  - rewrite Hs at 2. rewrite !length_app. lia.
  - intros Hp. rewrite Hs in Hp. unfold plain_spaces in *.
    apply Forall_app in Hp as [_ Hp]. apply Forall_app in Hp as [Hp _].
    exact Hp.
  - exact Hl.
  - unfold strip, rstrip.
    destruct (lstrip_spec s) as (ws & _ & _ & Hh).
    destruct (rstrip_spec (lstrip s)) as (ws' & _ & Heq & _).
    unfold rstrip in Heq.
    destruct (rev (lstrip (rev (lstrip s)))) as [|c r] eqn:E; [reflexivity|].
    simpl. apply Hh. rewrite Heq. reflexivity.
  - apply words_strip.
Qed.

(** What the formatter does to a short line that is already capitalized:
    the stripped line is split into sentences, and each sentence becomes a
    paragraph. *)
Lemma format_short_line (x : text) :
  capitalized x -> one_line x -> x <> [] ->
  let sentences := re_split_sentences (strip x) in
  format_transcription x = paragraphs sentences
  /\ join (str " ") (map capitalize_first sentences) = join (str " ") sentences
  /\ textwrap_fill (join (str " ") sentences) 80 = join (str " ") sentences
  /\ re_split_sentences (join (str " ") sentences) = sentences.
Proof.
  intros Hcap [Hplain Hlen] Hne sentences.
  destruct (strip_facts x) as (Hl0 & Hp0 & Hlast0 & Hstart0 & _).
  assert (Hmap : map capitalize_first sentences = sentences)
    by (apply map_capitalize_first_id; exact Hcap).
  assert (Hsplit : re_split_sentences (join (str " ") sentences) = sentences).
  { apply (re_split_join (str " ")); [repeat constructor|discriminate]. }
  assert (Hfill : textwrap_fill (join (str " ") sentences) 80
                  = join (str " ") sentences).
  { apply textwrap_fill_short.
    - pose proof (length_join_re_split (str " ") (strip x) (le_n 1) Elsewhere).
      unfold sentences, re_split_sentences. lia.
    - apply Forall_join_re_split; [repeat constructor|apply Hp0, Hplain].
    - intros c Hc. destruct (last (strip x)) as [d|] eqn:Hd.
      + pose proof (last_join_re_split (str " ") (strip x) d (Hlast0 d eq_refl)
                      Elsewhere Hd) as Hj.
        unfold sentences, re_split_sentences in Hc. rewrite Hj in Hc.
        injection Hc as <-. apply Hlast0. reflexivity.
      + apply last_None in Hd. unfold sentences in Hc. rewrite Hd in Hc.
        discriminate. }
  repeat split; try assumption; [|rewrite Hmap; reflexivity].
  unfold format_transcription. destruct x as [|a x]; [done|].
  assert (Hc0 : capitalize_first (strip (a :: x)) = strip (a :: x)).
  { destruct (strip (a :: x)) as [|c s] eqn:E; [reflexivity|].
    destruct (re_split_sentences_head c s) as (p & pieces & Hp).
    unfold capitalized in Hcap. rewrite E, Hp in Hcap.
    apply Forall_cons in Hcap as [Hcap _].
    simpl. rewrite (Hcap c eq_refl). reflexivity. }
  rewrite Hc0. fold sentences. rewrite Hmap, Hfill, Hsplit. reflexivity.
Qed.

Lemma sentences_trimmed (s : text) (c : ascii) (s' : text) :
  s = c :: s' -> isspace c = false ->
  (forall d, last s = Some d -> isspace d = false) ->
  Forall trimmed (re_split_sentences s)
  /\ all_but_last ends_terminal (re_split_sentences s)
  /\ trimmed (join [LF; LF] (re_split_sentences s))
  /\ head (join [LF; LF] (re_split_sentences s)) = Some c.
Proof.
  intros -> Hc Hlast.
  destruct (re_split_sentences_head c s') as (p & pieces & Hp).
  assert (Hends : all_but_last ends_terminal (re_split_sentences (c :: s'))).
  { pose proof (re_split_ends (c :: s') Elsewhere) as H.
    fold (re_split_sentences (c :: s')) in H.
    destruct (re_split_sentences (c :: s')) as [|p0 [|q0 pieces0]];
      [exact I|exact I|].
    destruct H as [[H|[H _]] Hrest]; [|discriminate]. split; assumption. }
  destruct (last (c :: s')) as [d|] eqn:Hd; [|apply last_None in Hd; done].
  destruct (re_split_last (c :: s') d (Hlast d eq_refl) Elsewhere Hd)
    as (pl & Hpl & Hpld).
  fold (re_split_sentences (c :: s')) in Hpl.
  assert (Hend' : Forall (fun p => exists e, last p = Some e /\ isspace e = false)
                    (re_split_sentences (c :: s'))).
  { apply (all_but_last_Forall ends_terminal _ _ Hends).
    - intros q (e & He & Ht). exists e. split; [exact He|].
      apply terminal_not_space. exact Ht.
    - intros q Hq. rewrite Hpl in Hq. injection Hq as <-.
      exists d. split; [exact Hpld|]. apply Hlast. reflexivity. }
  assert (Hstart : Forall (fun p => starts_space p = false)
                     (re_split_sentences (c :: s'))).
  { pose proof (proj1 (re_split_starts (c :: s') Elsewhere)) as H.
    fold (re_split_sentences (c :: s')) in H. rewrite Hp in *.
    constructor; [exact Hc|exact H]. }
  split; [|split; [exact Hends|split]].
  - apply Forall_forall. intros q Hq. split.
    + exact (proj1 (Forall_forall _ _) Hstart q Hq).
    + exact (proj1 (Forall_forall _ _) Hend' q Hq).
  - split.
    + rewrite Hp. destruct pieces; exact Hc.
    + exists d. split; [|apply Hlast; reflexivity].
      apply (last_join _ _ pl); assumption.
  - rewrite Hp. destruct pieces; reflexivity.
Qed.

(** ** Wrapping changes whitespace only *)

Lemma nonspace_app (a b : text) : nonspace (a ++ b) = nonspace a ++ nonspace b.
Proof. apply List.filter_app. Qed.

Lemma nonspace_blank (ws : text) : blank ws -> nonspace ws = [].
Proof.
  induction 1 as [|c ws Hc _ IH]; [reflexivity|].
  unfold nonspace in *. simpl. rewrite Hc. exact IH.
Qed.

Lemma nonspace_strip (s : text) : nonspace (strip s) = nonspace s.
Proof.
  destruct (strip_spec s) as (ws1 & ws2 & H1 & H2 & Hs & _).
  rewrite Hs at 2. rewrite !nonspace_app.
  rewrite (nonspace_blank ws1 H1), (nonspace_blank ws2 H2), app_nil_r.
  reflexivity.
Qed.

Lemma nonspace_join (sep : text) (pieces : list text) :
  blank sep -> nonspace (join sep pieces) = concat (map nonspace pieces).
Proof.
  intros Hsep. induction pieces as [|p pieces IH]; [reflexivity|].
  destruct pieces as [|q pieces].
  - simpl. rewrite app_nil_r. reflexivity.
  - rewrite join_cons by done. rewrite !nonspace_app, IH.
    rewrite (nonspace_blank sep Hsep). reflexivity.
Qed.

Lemma nonspace_concat (pieces : list text) :
  nonspace (concat pieces) = concat (map nonspace pieces).
Proof.
  induction pieces as [|p pieces IH]; [reflexivity|].
  simpl. rewrite nonspace_app, IH. reflexivity.
Qed.

Lemma nonspace_re_split (s : text) :
  forall st : split_state,
    concat (map nonspace (re_split_from st s)) = nonspace s.
Proof.
  induction s as [|c s IH]; intros st; [destruct st; reflexivity|].
  assert (Hpush : forall st',
            concat (map nonspace (push c (re_split_from st' s)))
            = nonspace (c :: s)).
  { intros st'.
    change (nonspace (c :: s))
      with (if negb (isspace c) then c :: nonspace s else nonspace s).
    rewrite <- (IH st').
    pose proof (re_split_from_nonempty st' s) as Hne.
    destruct (re_split_from st' s) as [|p pieces]; [done|].
    unfold nonspace at 1. simpl. destruct (isspace c); reflexivity. }
  assert (Hskip : isspace c = true -> nonspace (c :: s) = nonspace s).
  { intros Hc. unfold nonspace. simpl. rewrite Hc. reflexivity. }
  destruct st; cbn [re_split_from]; try destruct (isspace c) eqn:Hc;
    try apply Hpush.
  - rewrite IH. symmetry. apply Hskip. reflexivity.
  - cbn [map concat]. rewrite IH. symmetry. apply Hskip. reflexivity.
Qed.

Lemma paragraph_loop_nonspace (sentences : list text) :
  forall (i : nat) (ft p : text),
    let st := paragraph_loop i sentences (ft, p) in
    nonspace st.1 ++ nonspace st.2
    = nonspace ft ++ nonspace p ++ concat (map nonspace sentences).
Proof.
  induction sentences as [|s sentences IH]; intros i ft p;
    cbn [paragraph_loop concat map].
  - simpl. rewrite app_nil_r. reflexivity.
  - unfold paragraph_step.
    destruct (((Z.of_nat i + 1) mod 4 =? 0) || re_search_terminal s).
    + rewrite IH. rewrite !nonspace_app, nonspace_strip, !nonspace_app.
      simpl. rewrite !app_nil_r, <- !app_assoc. reflexivity.
    + rewrite IH. rewrite !nonspace_app. simpl.
      rewrite !app_nil_r, <- !app_assoc. reflexivity.
Qed.

Lemma nonspace_paragraphs (sentences : list text) :
  nonspace (paragraphs sentences) = concat (map nonspace sentences).
Proof.
  unfold paragraphs.
  pose proof (paragraph_loop_nonspace sentences 0 [] []) as H.
  destruct (paragraph_loop 0 sentences ([], [])) as [ft p]. simpl in H.
  destruct p as [|a p].
  - rewrite app_nil_r in H. exact H.
  - rewrite nonspace_app, nonspace_strip. exact H.
Qed.

Lemma nonspace_repeat_space (n : nat) : nonspace (repeat " "%char n) = [].
Proof. induction n; [reflexivity|exact IHn]. Qed.

Lemma nonspace_expandtabs (tabsize : nat) (s : text) :
  forall col : nat, nonspace (expandtabs_from tabsize col s) = nonspace s.
Proof.
  induction s as [|c s IH]; intros col; [reflexivity|]. simpl.
  destruct (c =? TAB)%char eqn:Ht.
  - apply Ascii.eqb_eq in Ht. subst c.
    rewrite nonspace_app, nonspace_repeat_space, IH. reflexivity.
  - destruct ((c =? LF)%char || (c =? CR)%char);
      unfold nonspace in *; simpl; rewrite IH; reflexivity.
Qed.

Lemma nonspace_munge_whitespace (s : text) :
  nonspace (munge_whitespace s) = nonspace s.
Proof.
  unfold munge_whitespace, expandtabs.
  rewrite <- (nonspace_expandtabs 8 s 0).
  induction (expandtabs_from 8 0 s) as [|c r IH]; [reflexivity|].
  unfold nonspace in *. simpl. rewrite IH.
  destruct (wrap_space c) eqn:Hw; [|reflexivity].
  rewrite (wrap_space_isspace c Hw). reflexivity.
Qed.

Lemma is_blank_nonspace (chunk : text) :
  is_blank chunk = true -> nonspace chunk = [].
Proof.
  unfold is_blank. intros H. apply bool_decide_eq_true in H.
  destruct (strip_spec chunk) as (ws1 & ws2 & H1 & H2 & Hs & _).
  rewrite H in Hs. rewrite Hs. apply nonspace_blank, blank_app. auto.
Qed.

Lemma wrap_measure_cons (chunk : text) (chunks : list text) :
  wrap_measure (chunk :: chunks)
  = (S (length chunk) + wrap_measure chunks)%nat.
Proof. unfold wrap_measure. simpl. rewrite length_app. lia. Qed.

Lemma wrap_measure_app (xs ys : list text) :
  wrap_measure (xs ++ ys) = (wrap_measure xs + wrap_measure ys)%nat.
Proof.
  unfold wrap_measure. rewrite concat_app, !length_app. lia.
Qed.

(** The inner loop splits the chunks in two, and stops at a chunk that does
    not fit. *)
Lemma take_fitting_spec (width : nat) (chunks : list text) :
  forall cur_len : nat,
    let '(cur_line, len, rest) := take_fitting width cur_len chunks in
    chunks = cur_line ++ rest
    /\ len = (cur_len + length (concat cur_line))%nat
    /\ ((cur_len <= width)%nat -> (len <= width)%nat)
    /\ (cur_line = [] ->
        match rest with
        | chunk :: _ => (width < cur_len + length chunk)%nat
        | [] => True
        end).
Proof.
  induction chunks as [|chunk chunks IH]; intros cur_len; simpl.
  - repeat split; auto; lia.
  - destruct (Nat.leb_spec (cur_len + length chunk) width) as [Hfit|Hfit].
    + specialize (IH (cur_len + length chunk)%nat).
      destruct (take_fitting width (cur_len + length chunk) chunks)
        as [[cur_line len] rest].
      destruct IH as (H1 & H2 & H3 & _).
      repeat split.
      * simpl. f_equal. exact H1.
      * simpl. rewrite length_app. lia.
      * intros _. apply H3. exact Hfit.
      * discriminate.
    + repeat split; auto; simpl; lia.
Qed.

Lemma rfind_from_bound (s : text) :
  forall i j : nat, rfind_from i s = Some j -> (i <= j < i + length s)%nat.
Proof.
  induction s as [|c s IH]; intros i j H; simpl in *; [discriminate|].
  destruct (rfind_from (S i) s) as [k|] eqn:Hk.
  - injection H as <-. apply IH in Hk. lia.
  - destruct (is_hyphen c); [|discriminate]. injection H as <-. lia.
Qed.

(** A chunk too long for any line is cut in two, and the part left is
    shorter and not empty. *)
Lemma handle_long_word_spec (width cur_len : nat) (cur_line : list text)
  (chunk : text) (chunks : list text) :
  (1 <= width)%nat -> (cur_len <= width)%nat -> (width < length chunk)%nat ->
  exists e : nat,
    handle_long_word width cur_len cur_line (chunk :: chunks)
    = (cur_line ++ [take e chunk], drop e chunk :: chunks)
    /\ (e < length chunk)%nat
    /\ (cur_len = 0%nat -> (1 <= e)%nat).
Proof.
  intros Hw Hcur Hlong. unfold handle_long_word.
  destruct (Nat.ltb_spec width 1) as [|_]; [lia|].
  destruct (Nat.ltb_spec (width - cur_len) (length chunk)) as [_|]; [|lia].
  destruct (rfind_hyphen chunk (width - cur_len)) as [hyphen|] eqn:Hh.
  - unfold rfind_hyphen in Hh. apply rfind_from_bound in Hh.
    rewrite length_take in Hh.
    destruct ((0 <? hyphen)%nat
              && existsb (fun c => negb (is_hyphen c)) (take hyphen chunk)).
    + exists (S hyphen). split; [reflexivity|]. lia.
    + exists (width - cur_len)%nat. split; [reflexivity|]. lia.
  - exists (width - cur_len)%nat. split; [reflexivity|]. lia.
Qed.

Lemma drop_trailing_blank_nonspace (cur_line : list text) :
  nonspace
    (concat
       match last cur_line with
       | Some chunk => if is_blank chunk then removelast cur_line else cur_line
       | None => cur_line
       end)
  = nonspace (concat cur_line).
Proof.
  destruct (last cur_line) as [chunk|] eqn:Hl; [|reflexivity].
  destruct (is_blank chunk) eqn:Hb; [|reflexivity].
  apply last_Some in Hl as [l ->].
  rewrite removelast_last, concat_app, nonspace_app. simpl.
  rewrite app_nil_r, (is_blank_nonspace chunk Hb), app_nil_r. reflexivity.
Qed.

(** One turn of the outer loop: the line and the chunks left hold the
    non-whitespace characters of the chunks, and the chunks left are fewer
    or shorter. *)
Lemma wrap_line_spec (width : nat) (started : bool) (chunks : list text) :
  (1 <= width)%nat -> chunks <> [] ->
  Forall (fun chunk => chunk <> []) chunks ->
  let '(line, chunks') := wrap_line width started chunks in
  nonspace (default [] line) ++ nonspace (concat chunks')
  = nonspace (concat chunks)
  /\ Forall (fun chunk => chunk <> []) chunks'
  /\ (wrap_measure chunks' < wrap_measure chunks)%nat.
Proof.
  intros Hw Hne Hall. unfold wrap_line.
  destruct chunks as [|chunk0 chunks0]; [done|].
  set (chunks1 := if is_blank chunk0 && started then chunks0
                  else chunk0 :: chunks0).
  assert (H1 : nonspace (concat chunks1) = nonspace (concat (chunk0 :: chunks0))
               /\ Forall (fun chunk => chunk <> []) chunks1
               /\ ((wrap_measure chunks1 < wrap_measure (chunk0 :: chunks0))%nat
                   \/ chunks1 = chunk0 :: chunks0)).
  { subst chunks1. destruct (is_blank chunk0 && started) eqn:Hb.
    - apply andb_true_iff in Hb as [Hb _]. split; [|split].
      + simpl. rewrite nonspace_app, (is_blank_nonspace _ Hb). reflexivity.
      + apply Forall_cons in Hall. tauto.
      + left. rewrite wrap_measure_cons. lia.
    - split; [reflexivity|]. split; [exact Hall|right; reflexivity]. }
  destruct H1 as (Hn1 & Hall1 & Hm1). clearbody chunks1.
  pose proof (take_fitting_spec width chunks1 0) as Htake.
  destruct (take_fitting width 0 chunks1) as [[cur_line cur_len] rest].
  destruct Htake as (Hsplit & Hlen & Hfit & Hstop).
  specialize (Hfit (Nat.le_0_l _)).
  assert (Hrest : Forall (fun chunk => chunk <> []) rest).
  { rewrite Hsplit in Hall1. apply Forall_app in Hall1. tauto. }
  assert (H3 : exists cur_line' rest',
             match rest with
             | chunk :: _ =>
                 if (width <? length chunk)%nat
                 then handle_long_word width cur_len cur_line rest
                 else (cur_line, rest)
             | [] => (cur_line, rest)
             end = (cur_line', rest')
             /\ concat cur_line' ++ concat rest' = concat chunks1
             /\ Forall (fun chunk => chunk <> []) rest'
             /\ (wrap_measure rest' <= wrap_measure rest)%nat
             /\ (cur_line = [] -> rest <> [] ->
                 (wrap_measure rest' < wrap_measure rest)%nat)).
  { destruct rest as [|chunk rest0].
    - exists cur_line, []. rewrite Hsplit, concat_app. repeat split; auto. done.
    - destruct (Nat.ltb_spec width (length chunk)) as [Hlong|Hshort].
      + destruct (handle_long_word_spec width cur_len cur_line chunk rest0
                    Hw Hfit Hlong) as (e & He & Hlt & Hpos).
        exists (cur_line ++ [take e chunk]), (drop e chunk :: rest0).
        split; [exact He|].
        apply Forall_cons in Hrest as [_ Hrest0].
        assert (Hdrop : length (drop e chunk) = (length chunk - e)%nat)
          by apply length_drop.
        repeat split.
        * rewrite Hsplit, !concat_app. simpl. rewrite app_nil_r, <- !app_assoc.
          rewrite (app_assoc (take e chunk)), take_drop. reflexivity.
        * constructor; [|exact Hrest0].
          intros Hnil. rewrite Hnil in Hdrop. simpl in Hdrop. lia.
        * rewrite !wrap_measure_cons. lia.
        * intros Hcl _. rewrite !wrap_measure_cons.
          assert (cur_len = 0%nat) by (rewrite Hlen, Hcl; reflexivity).
          specialize (Hpos ltac:(assumption)). lia.
      + exists cur_line, (chunk :: rest0).
        rewrite Hsplit, concat_app. repeat split; auto.
        intros Hcl _. specialize (Hstop Hcl). simpl in Hstop. lia. }
  destruct H3 as (cur_line' & rest' & -> & Hcat & Hall' & Hle & Hlt).
  pose proof (drop_trailing_blank_nonspace cur_line') as Htrail.
  set (cur_line'' := match last cur_line' with
                     | Some chunk =>
                         if is_blank chunk then removelast cur_line'
                         else cur_line'
                     | None => cur_line'
                     end) in *.
  split; [|split; [exact Hall'|]].
  - rewrite <- Hn1, <- Hcat, nonspace_app, <- Htrail.
    destruct cur_line''; reflexivity.
  - assert (Hsum : wrap_measure chunks1
                   = (wrap_measure cur_line + wrap_measure rest)%nat)
      by (rewrite Hsplit; apply wrap_measure_app).
    destruct Hm1 as [Hm1|Heq]; [lia|].
    destruct cur_line as [|c1 cl].
    + simpl in Hsplit. subst chunks1 rest.
      specialize (Hlt eq_refl ltac:(discriminate)). lia.
    + rewrite <- Heq, Hsum, wrap_measure_cons. lia.
Qed.

(** With fuel for every turn, the lines hold the non-whitespace characters
    of the lines so far and of the chunks. *)
Lemma wrap_chunks_from_nonspace (width : nat) (fuel : nat) :
  (1 <= width)%nat ->
  forall lines chunks : list text,
    (wrap_measure chunks < fuel)%nat ->
    Forall (fun chunk => chunk <> []) chunks ->
    concat (map nonspace (wrap_chunks_from fuel width lines chunks))
    = concat (map nonspace lines) ++ nonspace (concat chunks).
Proof.
  intros Hw. induction fuel as [|fuel IH]; intros lines chunks Hfuel Hall;
    [lia|].
  destruct chunks as [|chunk chunks].
  { simpl. rewrite app_nil_r. reflexivity. }
  cbn [wrap_chunks_from].
  pose proof (wrap_line_spec width (if lines is [] then false else true)
                (chunk :: chunks) Hw ltac:(discriminate) Hall) as Hline.
  destruct (wrap_line width (if lines is [] then false else true)
              (chunk :: chunks)) as [line chunks'].
  destruct Hline as (Hn & Hall' & Hm).
  rewrite IH by (try exact Hall'; lia).
  rewrite <- Hn, app_assoc. f_equal.
  destruct line as [l|]; simpl.
  - rewrite map_app, concat_app. simpl. rewrite app_nil_r. reflexivity.
  - rewrite app_nil_r. reflexivity.
Qed.

(** [textwrap.fill] changes whitespace only. *)
Lemma nonspace_textwrap_fill (s : text) (width : nat) :
  (1 <= width)%nat -> nonspace (textwrap_fill s width) = nonspace s.
Proof.
  intros Hw. unfold textwrap_fill, split_chunks, wrap_chunks, wrap_fuel.
  destruct (split_from_tiles (length (munge_whitespace s)) []
              (munge_whitespace s) (le_n _)) as [Hcat Hne].
  rewrite nonspace_join by (repeat constructor).
  rewrite wrap_chunks_from_nonspace; [|exact Hw|unfold wrap_measure; lia|exact Hne].
  simpl. rewrite Hcat. apply nonspace_munge_whitespace.
Qed.

(** On a capitalized text, the formatter changes whitespace only. *)
Lemma nonspace_format_transcription (x : text) :
  capitalized x -> nonspace (format_transcription x) = nonspace x.
Proof.
  intros Hcap. unfold format_transcription.
  destruct x as [|a x]; [reflexivity|].
  assert (Hc0 : capitalize_first (strip (a :: x)) = strip (a :: x)).
  { destruct (strip (a :: x)) as [|c s] eqn:E; [reflexivity|].
    destruct (re_split_sentences_head c s) as (p & pieces & Hp).
    unfold capitalized in Hcap. rewrite E, Hp in Hcap.
    apply Forall_cons in Hcap as [Hcap _].
    simpl. rewrite (Hcap c eq_refl). reflexivity. }
  rewrite Hc0, (map_capitalize_first_id _ Hcap).
  rewrite nonspace_paragraphs. unfold re_split_sentences at 1.
  rewrite nonspace_re_split, nonspace_textwrap_fill by lia.
  rewrite nonspace_join by (repeat constructor).
  unfold re_split_sentences. rewrite nonspace_re_split.
  apply nonspace_strip.
Qed.

(** C7. On an input that is already capitalized, the formatter changes
    whitespace only: the characters that are not whitespace come out as they
    went in. When the input is moreover one line of at most 80 characters
    (so one paragraph; any number of sentences), the output has the words of
    the input, in the same order; it is the sentences of the input separated
    by paragraph breaks, possibly with one more break at the end; and
    formatting it again changes nothing. *)
Theorem format_short_line_stable (x : text) :
  capitalized x ->
  nonspace (format_transcription x) = nonspace x
  /\ (one_line x ->
      words (format_transcription x) = words x
      /\ format_transcription (format_transcription x) = format_transcription x
      /\ exists tail : text,
           blank tail
           /\ format_transcription x
              = join [LF; LF] (re_split_sentences (strip x)) ++ tail).
Proof.
  intros Hcap. split; [apply nonspace_format_transcription; exact Hcap|].
  intros Hline.
  destruct x as [|a x]; [split; [|split]; try reflexivity; exists []; split; [constructor|reflexivity]|].
  destruct (format_short_line (a :: x) Hcap Hline) as (Hf & Hm & Hfill & Hsplit);
    [done|].
  cbv zeta in *. set (t0 := strip (a :: x)) in *.
  set (sentences := re_split_sentences t0) in *.
  destruct (strip_facts (a :: x)) as (_ & _ & Hlast0 & Hstart0 & Hw0).
  fold t0 in Hlast0, Hstart0, Hw0.
  split; [|].
  { rewrite Hf, words_paragraphs.
    rewrite <- (words_join (str " ")) by (repeat constructor || discriminate).
    unfold sentences, re_split_sentences.
    rewrite (proj1 (words_join_re_split (str " ") ltac:(repeat constructor)
                      ltac:(discriminate) t0 Elsewhere)).
    exact Hw0. }
  destruct t0 as [|c s'] eqn:Et0.
  { subst sentences. rewrite Hf. vm_compute. split; [reflexivity|].
    exists []. split; [constructor|reflexivity]. }
  destruct (sentences_trimmed (c :: s') c s' eq_refl Hstart0 Hlast0)
    as (Htr & Hends & Hjoin & Hhead).
  fold sentences in Htr, Hends, Hjoin, Hhead.
  destruct (paragraph_loop_trimmed sentences 0 [] (re_split_from_nonempty _ _)
              Htr Hends) as (tail & Htail & Hpar).
  change (paragraphs sentences = [] ++ join [LF; LF] sentences ++ tail) in Hpar.
  simpl app in Hpar.
  split; [|exists tail; split; [exact Htail|rewrite Hf; exact Hpar]].
  rewrite Hf.
  unfold format_transcription at 1.
  destruct (paragraphs sentences) as [|b y] eqn:Ey; [reflexivity|].
  rewrite <- Ey in *. clear Ey b y.
  assert (Hstrip : strip (paragraphs sentences) = join [LF; LF] sentences).
  { rewrite Hpar. apply (strip_trimmed [] _ tail); [constructor|exact Htail|].
    exact Hjoin. }
  rewrite Hstrip.
  assert (Hc1 : capitalize_first (join [LF; LF] sentences)
                = join [LF; LF] sentences).
  { apply capitalize_first_id. intros d Hd. rewrite Hhead in Hd.
    injection Hd as <-.
    destruct (re_split_sentences_head c s') as (p & pieces & Hp).
    unfold capitalized in Hcap. fold t0 in Hcap. rewrite Et0, Hp in Hcap.
    apply Forall_cons in Hcap as [Hcap _]. apply Hcap. reflexivity. }
  rewrite Hc1.
  assert (Hre : re_split_sentences (join [LF; LF] sentences) = sentences).
  { apply (re_split_join [LF; LF]); [repeat constructor|discriminate]. }
  rewrite Hre, Hm, Hfill, Hsplit. reflexivity.
Qed.

(** * Further properties *)

(** ** Numerals *)

Lemma to_int_proper (z : Z) : Z.to_int z <> Pos Nil /\ Z.to_int z <> Neg Nil.
Proof.
  destruct z as [|p|p]; simpl; split; try discriminate;
    intros [= H]; exact (DecimalPos.Unsigned.to_uint_nonnil p H).
Qed.

Lemma decimal_value_str_of_int (z : Z) : decimal_value (str_of_int z) = Some z.
Proof.
  unfold decimal_value, str_of_int.
  rewrite string_of_list_ascii_of_string.
  destruct (to_int_proper z) as [H1 H2].
  rewrite (NilZero.isi _ H1 H2). simpl. rewrite DecimalZ.of_to. reflexivity.
Qed.

Lemma str_of_int_inj (a b : Z) : str_of_int a = str_of_int b -> a = b.
Proof.
  intros H. apply (f_equal decimal_value) in H.
  rewrite !decimal_value_str_of_int in H. congruence.
Qed.

(** A numeral of a number that is not negative starts with a digit. *)
Lemma str_of_int_head (z : Z) :
  0 <= z ->
  exists (c : ascii) (s : text),
    str_of_int z = c :: s /\ (c =? "-")%char = false.
Proof.
  intros Hz. unfold str_of_int.
  destruct z as [|p|p]; [| |lia]; simpl.
  - exists "0"%char, []. split; reflexivity.
  - pose proof (DecimalPos.Unsigned.to_uint_nonnil p) as Hn.
    destruct (Pos.to_uint p); [done| | | | | | | | | |]; simpl;
      eexists _, _; split; reflexivity.
Qed.

Lemma decimal_value_zero_cons (c : ascii) (s : text) :
  (c =? "-")%char = false ->
  decimal_value ("0"%char :: c :: s) = decimal_value (c :: s).
Proof.
  intros Hc. unfold decimal_value. cbn [string_of_list_ascii].
  unfold NilZero.int_of_string. rewrite Hc.
  change (Ascii.eqb "0" "-") with false. cbv iota.
  unfold NilZero.uint_of_string.
  change (NilEmpty.uint_of_string
            (String "0" (String c (string_of_list_ascii s))))
    with (uint_of_char "0"
            (NilEmpty.uint_of_string (String c (string_of_list_ascii s)))).
  destruct (NilEmpty.uint_of_string (String c (string_of_list_ascii s)));
    reflexivity.
Qed.

Lemma decimal_value_zfill (w : nat) (z : Z) :
  0 <= z -> decimal_value (zfill w (str_of_int z)) = Some z.
Proof.
  intros Hz. unfold zfill.
  destruct (str_of_int_head z Hz) as (c & s & Hs & Hc).
  induction (w - length (str_of_int z))%nat as [|k IH]; simpl.
  - apply decimal_value_str_of_int.
  - rewrite <- IH. destruct k; simpl.
    + rewrite Hs. apply decimal_value_zero_cons. exact Hc.
    + apply decimal_value_zero_cons. reflexivity.
Qed.

Lemma format_d_inj (w : nat) (a b : Z) :
  0 <= a -> 0 <= b -> format_d w a = format_d w b -> a = b.
Proof.
  intros Ha Hb. unfold format_d.
  destruct (Z.ltb_spec a 0); [lia|]. destruct (Z.ltb_spec b 0); [lia|].
  intros Heq. apply (f_equal decimal_value) in Heq.
  rewrite !decimal_value_zfill in Heq by assumption. congruence.
Qed.

Lemma length_zfill (w : nat) (digits : text) :
  length (zfill w digits) = Nat.max w (length digits).
Proof. unfold zfill. rewrite length_app, repeat_length. lia. Qed.

(** ** Time stamps *)

(** A check made on every number below [n] holds for each of them. *)
Lemma checked_below (P : Z -> bool) (n : nat) :
  forallb (fun k => P (Z.of_nat k)) (seq 0 n) = true ->
  forall z : Z, 0 <= z < Z.of_nat n -> P z = true.
Proof.
  intros H z Hz. rewrite forallb_forall in H.
  rewrite <- (Z2Nat.id z) by lia. apply H.
  apply in_seq. lia.
Qed.

Lemma format_d_2_shape (z : Z) :
  0 <= z < 100 ->
  exists a b : ascii,
    format_d 2 z = [a; b] /\ is_digit a = true /\ is_digit b = true.
Proof.
  intros Hz.
  pose proof (checked_below
                (fun z => match format_d 2 z with
                          | [a; b] => is_digit a && is_digit b
                          | _ => false
                          end) 100 ltac:(vm_compute; reflexivity) z Hz) as H.
  simpl in H. destruct (format_d 2 z) as [|a [|b [|? ?]]]; try discriminate.
  apply andb_true_iff in H. exists a, b. tauto.
Qed.

Lemma format_d_3_shape (z : Z) :
  0 <= z < 1000 ->
  exists a b c : ascii,
    format_d 3 z = [a; b; c]
    /\ is_digit a = true /\ is_digit b = true /\ is_digit c = true.
Proof.
  intros Hz.
  pose proof (checked_below
                (fun z => match format_d 3 z with
                          | [a; b; c] => is_digit a && is_digit b && is_digit c
                          | _ => false
                          end) 1000 ltac:(vm_compute; reflexivity) z Hz) as H.
  simpl in H. destruct (format_d 3 z) as [|a [|b [|c [|? ?]]]]; try discriminate.
  apply andb_true_iff in H as [H Hc]. apply andb_true_iff in H.
  exists a, b, c. tauto.
Qed.

Lemma time_fields_sum (ms : Z) :
  ((ms / 3600000 * 60 + (ms / 60000) mod 60) * 60 + (ms / 1000) mod 60) * 1000
  + ms mod 1000 = ms.
Proof.
  assert (E1 : ms / 1000 / 60 = ms / 60000)
    by (rewrite Z.div_div by lia; reflexivity).
  assert (E2 : ms / 60000 / 60 = ms / 3600000)
    by (rewrite Z.div_div by lia; reflexivity).
  pose proof (Z.div_mod ms 1000 ltac:(lia)) as D1.
  pose proof (Z.div_mod (ms / 1000) 60 ltac:(lia)) as D2.
  pose proof (Z.div_mod (ms / 60000) 60 ltac:(lia)) as D3.
  rewrite E1 in D2. rewrite E2 in D3. lia.
Qed.

(** X1. The fields printed by [format_time] are the mixed-radix digits of
    the millisecond count: minutes and seconds below 60, milliseconds below
    1000, and together with the hours they give the count back; the hours
    are negative exactly when the count is. *)
Theorem time_fields_mixed_radix (ms : Z) :
  let '(hours, minutes, seconds, milliseconds) := time_fields ms in
  0 <= minutes < 60 /\ 0 <= seconds < 60 /\ 0 <= milliseconds < 1000
  /\ ((hours * 60 + minutes) * 60 + seconds) * 1000 + milliseconds = ms
  /\ (0 <= hours <-> 0 <= ms).
Proof.
  rewrite time_fields_closed.
  pose proof (Z.mod_pos_bound (ms / 60000) 60 ltac:(lia)).
  pose proof (Z.mod_pos_bound (ms / 1000) 60 ltac:(lia)).
  pose proof (Z.mod_pos_bound ms 1000 ltac:(lia)).
  repeat split; try lia.
  - apply time_fields_sum.
  - intros Hh. destruct (Z.lt_ge_cases ms 0) as [Hneg|]; [|lia].
    pose proof (Z.div_lt_upper_bound ms 3600000 0 ltac:(lia) ltac:(lia)). lia.
  - intros Hms. apply Z.div_pos; lia.
Qed.

(** X2. Below one hundred hours a time stamp has exactly twelve characters:
    two digits, a colon, two digits, a colon, two digits, a comma and three
    digits. *)
Theorem format_time_shape (ms : Z) :
  0 <= ms < 360000000 ->
  exists h1 h2 m1 m2 s1 s2 f1 f2 f3 : ascii,
    format_time ms
    = [h1; h2; ":"; m1; m2; ":"; s1; s2; ","; f1; f2; f3]%char
    /\ Forall (fun c => is_digit c = true) [h1; h2; m1; m2; s1; s2; f1; f2; f3].
Proof.
  intros Hms. unfold format_time. rewrite time_fields_closed.
  assert (Hh : 0 <= ms / 3600000 < 100).
  { split; [apply Z.div_pos; lia|]. apply Z.div_lt_upper_bound; lia. }
  destruct (format_d_2_shape _ Hh) as (h1 & h2 & Eh & ? & ?).
  destruct (format_d_2_shape ((ms / 60000) mod 60)) as (m1 & m2 & Em & ? & ?);
    [pose proof (Z.mod_pos_bound (ms / 60000) 60); lia|].
  destruct (format_d_2_shape ((ms / 1000) mod 60)) as (s1 & s2 & Es & ? & ?);
    [pose proof (Z.mod_pos_bound (ms / 1000) 60); lia|].
  destruct (format_d_3_shape (ms mod 1000)) as (f1 & f2 & f3 & Ef & ? & ? & ?);
    [apply Z.mod_pos_bound; lia|].
  exists h1, h2, m1, m2, s1, s2, f1, f2, f3.
  rewrite Eh, Em, Es, Ef. split; [reflexivity|].
  repeat constructor; assumption.
Qed.

(** X3. Two different moments never get the same time stamp, however many
    digits the hours take. *)
Theorem format_time_injective (ms ms' : Z) :
  0 <= ms -> 0 <= ms' -> ms <> ms' -> format_time ms <> format_time ms'.
Proof.
  intros Hms Hms' Hne Heq. apply Hne.
  pose proof (time_fields_sum ms) as Hsum.
  pose proof (time_fields_sum ms') as Hsum'.
  unfold format_time in Heq. rewrite !time_fields_closed in Heq.
  pose proof (Z.mod_pos_bound (ms / 60000) 60 ltac:(lia)) as Hm.
  pose proof (Z.mod_pos_bound (ms / 1000) 60 ltac:(lia)) as Hs.
  pose proof (Z.mod_pos_bound ms 1000 ltac:(lia)) as Hf.
  pose proof (Z.mod_pos_bound (ms' / 60000) 60 ltac:(lia)) as Hm'.
  pose proof (Z.mod_pos_bound (ms' / 1000) 60 ltac:(lia)) as Hs'.
  pose proof (Z.mod_pos_bound ms' 1000 ltac:(lia)) as Hf'.
  assert (Hh : 0 <= ms / 3600000) by (apply Z.div_pos; lia).
  assert (Hh' : 0 <= ms' / 3600000) by (apply Z.div_pos; lia).
  set (h := ms / 3600000) in *. set (h' := ms' / 3600000) in *.
  set (m := (ms / 60000) mod 60) in *. set (m' := (ms' / 60000) mod 60) in *.
  set (s := (ms / 1000) mod 60) in *. set (s' := (ms' / 1000) mod 60) in *.
  set (f := ms mod 1000) in *. set (f' := ms' mod 1000) in *.
  destruct (format_d_2_shape m) as (a1 & a2 & Em & _); [lia|].
  destruct (format_d_2_shape m') as (b1 & b2 & Em' & _); [lia|].
  destruct (format_d_2_shape s) as (a3 & a4 & Es & _); [lia|].
  destruct (format_d_2_shape s') as (b3 & b4 & Es' & _); [lia|].
  destruct (format_d_3_shape f) as (a5 & a6 & a7 & Ef & _); [lia|].
  destruct (format_d_3_shape f') as (b5 & b6 & b7 & Ef' & _); [lia|].
  apply app_inj_2 in Heq as [Hhh Hrest];
    [|rewrite Em, Em', Es, Es', Ef, Ef'; reflexivity].
  assert (Hmm : format_d 2 m = format_d 2 m'
                /\ format_d 2 s = format_d 2 s'
                /\ format_d 3 f = format_d 3 f').
  { rewrite Em, Em', Es, Es', Ef, Ef' in *. simpl in Hrest.
    injection Hrest as -> -> -> -> -> -> ->. auto. }
  destruct Hmm as (Hmm & Hss & Hff).
  apply format_d_inj in Hhh; [|lia|lia].
  apply format_d_inj in Hmm; [|lia|lia].
  apply format_d_inj in Hss; [|lia|lia].
  apply format_d_inj in Hff; [|lia|lia].
  lia.
Qed.

(** ** What a loop that ends has done *)

Lemma process_chunk_inv (n i : nat) (c : chunk) (l l' : locals) (w w' : world) :
  process_chunk n i c l w = (inr l', w') ->
  l' = Locals (current_position l + duration c)
         (segment_texts l ++ option_list (chunk_text c))
         (subtitle_entries l
          ++ option_list (chunk_entry i (chunk_times (current_position l) c) c))
  /\ export_error c = None
  /\ files w' = files w
  /\ exists names, temp_dir w = Some names
                   /\ temp_dir w' = Some ({[chunk_filename i]} ∪ names).
Proof.
  unfold process_chunk, chunk_entry, chunk_text, chunk_times, export, bind,
    raise_if, raise.
  destruct (export_error c) as [e|]; [discriminate|].
  destruct (temp_dir w) as [names|] eqn:Hd; [|discriminate].
  destruct (recognized c) as [[|a t]| |e]; simpl; rewrite ?app_nil_r;
    intros [= <- <-]; simpl; eauto 10.
Qed.

Lemma process_chunks_inv (n : nat) (chunks : list chunk) :
  forall (i : nat) (l l' : locals) (w w' : world),
    process_chunks n i chunks l w = (inr l', w') ->
    l' = Locals (current_position l + total_duration chunks)
           (segment_texts l ++ texts_of chunks)
           (subtitle_entries l ++ entries_from i (current_position l) chunks)
    /\ Forall (fun c => export_error c = None) chunks
    /\ files w' = files w.
Proof.
  induction chunks as [|c chunks IH]; intros i l l' w w' H.
  - injection H as <- <-. simpl. rewrite Z.add_0_r, !app_nil_r.
    destruct l; auto.
  - simpl in H. unfold bind at 1 in H.
    destruct (process_chunk n i c l w) as [[e|l1] w1] eqn:E1; [discriminate|].
    apply process_chunk_inv in E1 as (-> & Hc & F1 & _).
    apply IH in H as (-> & Hexp & F2). simpl.
    split; [|split; [constructor; assumption|congruence]].
    unfold texts_of. simpl.
    destruct (chunk_text c); simpl; rewrite <- ?app_assoc; simpl;
      f_equal; first [lia|reflexivity].
Qed.

(** ** The subtitle entries of a run *)

Lemma chunk_entry_fields (i : nat) (times : Z * Z) (c : chunk) (e : entry) :
  chunk_entry i times c = Some e ->
  index e = Z.of_nat i + 1 /\ start e = times.1 /\ end_ e = times.2
  /\ chunk_text c = Some (text_ e).
Proof.
  unfold chunk_entry. destruct (chunk_text c) as [t|]; [|discriminate].
  intros [= <-]. auto.
Qed.

Lemma total_duration_nonneg (chunks : list chunk) :
  Forall (fun c => 0 <= duration c) chunks -> 0 <= total_duration chunks.
Proof. induction 1; simpl; lia. Qed.

Lemma entries_from_bounds (chunks : list chunk) :
  Forall (fun c => 0 <= duration c) chunks ->
  forall (i : nat) (pos : Z) (e : entry),
    e ∈ entries_from i pos chunks ->
    Z.of_nat i + 1 <= index e <= Z.of_nat i + Z.of_nat (length chunks)
    /\ pos <= start e /\ start e <= end_ e
    /\ end_ e <= pos + total_duration chunks.
Proof.
  induction 1 as [|c chunks Hc Hall IH]; intros i pos e He; simpl in He.
  - inversion He.
  - pose proof (total_duration_nonneg _ Hall) as Hnn.
    apply elem_of_app in He as [He|He].
    + destruct (chunk_entry i _ c) as [e'|] eqn:E; simpl in He;
        [|inversion He].
      apply list_elem_of_singleton in He. subst e'.
      apply chunk_entry_fields in E as (-> & -> & -> & _).
      unfold chunk_times. simpl. lia.
    + apply IH in He. unfold chunk_times in He. simpl in *. lia.
Qed.

Lemma entries_from_sorted (chunks : list chunk) :
  Forall (fun c => 0 <= duration c) chunks ->
  forall (i : nat) (pos : Z),
    StronglySorted precedes (entries_from i pos chunks).
Proof.
  induction 1 as [|c chunks Hc Hall IH]; intros i pos; simpl; [constructor|].
  destruct (chunk_entry i _ c) as [e|] eqn:E; simpl; [|apply IH].
  constructor; [apply IH|].
  apply chunk_entry_fields in E as (Hi & Hs & He & _).
  apply List.Forall_forall. intros e' He'. apply list_elem_of_In in He'.
  apply (entries_from_bounds _ Hall) in He'.
  unfold precedes, chunk_times in *. simpl in *. lia.
Qed.

(** X4. The subtitle entries of a completed loop run forward: numbered
    increasingly within 1..N, each interval inside the audio, and no entry
    starting before the one before it has ended. *)
Theorem subtitle_entries_ordered (n : nat) (chunks : list chunk)
  (l : locals) (w w' : world) :
  Forall (fun c => 0 <= duration c) chunks ->
  process_chunks n 0 chunks (Locals 0 [] []) w = (inr l, w') ->
  (forall e : entry,
     e ∈ subtitle_entries l ->
     1 <= index e <= Z.of_nat (length chunks)
     /\ 0 <= start e <= end_ e /\ end_ e <= total_duration chunks)
  /\ (forall (i j : nat) (e1 e2 : entry),
        (i < j)%nat ->
        subtitle_entries l !! i = Some e1 ->
        subtitle_entries l !! j = Some e2 ->
        index e1 < index e2 /\ end_ e1 <= start e2).
Proof.
  intros Hnn Hrun. apply process_chunks_inv in Hrun as (-> & _ & _). simpl.
  split.
  - intros e He. apply (entries_from_bounds _ Hnn) in He. simpl in He. lia.
  - pose proof (entries_from_sorted _ Hnn 0%nat 0) as Hs.
    induction Hs as [|e0 es Hs IH Hall]; intros i j e1 e2 Hij H1 H2;
      [discriminate|].
    destruct j as [|j]; [lia|]. simpl in H2.
    destruct i as [|i].
    + injection H1 as <-. rewrite List.Forall_forall in Hall.
      apply Hall. apply list_elem_of_In. eapply list_elem_of_lookup_2. exact H2.
    + simpl in H1. apply (IH i j); [lia|assumption|assumption].
Qed.

(** X5. The two lists built by the loop go together: the texts of the subtitle
    entries are the transcript segments, one for one, none of them empty,
    and there is at most one per chunk. *)
Theorem segments_match_entries (n : nat) (chunks : list chunk)
  (l : locals) (w w' : world) :
  process_chunks n 0 chunks (Locals 0 [] []) w = (inr l, w') ->
  map text_ (subtitle_entries l) = segment_texts l
  /\ Forall (fun t => t <> []) (segment_texts l)
  /\ (length (segment_texts l) <= length chunks)%nat.
Proof.
  intros Hrun. apply process_chunks_inv in Hrun as (-> & _ & _). simpl.
  generalize 0%nat at 1. generalize 0 at 1.
  induction chunks as [|c chunks IH]; intros pos i; simpl.
  - repeat split; constructor.
  - destruct (IH (chunk_times pos c).2 (S i)) as (H1 & H2 & H3).
    unfold texts_of in *. simpl. unfold chunk_entry.
    destruct (chunk_text c) as [t|] eqn:Ht; simpl.
    + repeat split; [f_equal; exact H1| |lia].
      constructor; [|exact H2].
      unfold chunk_text in Ht.
      destruct (recognized c) as [[|a t0]| |]; try discriminate.
      injection Ht as <-. discriminate.
    + repeat split; [exact H1|exact H2|lia].
Qed.

(** ** Files a run does not touch *)

Lemma leaves_file_bind {A B} (path : text) (m : M A) (k : A -> M B) :
  leaves_file path m -> (forall a, leaves_file path (k a)) ->
  leaves_file path (bind m k).
Proof.
  intros Hm Hk w. unfold bind. specialize (Hm w).
  destruct (m w) as [[e|a] w1]; simpl in *; [exact Hm|].
  rewrite Hk. exact Hm.
Qed.

Lemma leaves_file_ret {A} (path : text) (a : A) : leaves_file path (ret a).
Proof. intros w. reflexivity. Qed.

Lemma leaves_file_raise_if {A} (path : text) (error : option text) (m : M A) :
  leaves_file path m -> leaves_file path (raise_if error m).
Proof. intros Hm. destruct error; [intros w; reflexivity|exact Hm]. Qed.

Lemma leaves_file_callback (path message : text) :
  leaves_file path (update_callback message).
Proof. intros w. reflexivity. Qed.

Lemma leaves_file_write_file (E : env) (path target content : text) :
  target <> path -> leaves_file path (write_file E target content).
Proof.
  intros Hne. apply leaves_file_raise_if. intros w. simpl.
  apply lookup_insert_ne. exact Hne.
Qed.

Lemma leaves_file_make_temp_dir (E : env) (path : text) :
  leaves_file path (make_temp_dir E).
Proof.
  intros w. unfold make_temp_dir, raise_if, raise.
  destruct (temp_dir w); [reflexivity|]. destruct (mkdir_error E); reflexivity.
Qed.

Lemma leaves_file_clean_up (E : env) (path : text) :
  leaves_file path (clean_up E).
Proof.
  apply leaves_file_raise_if. intros w. destruct (temp_dir w); reflexivity.
Qed.

Lemma leaves_file_export (c : chunk) (path name : text) :
  leaves_file path (export c name).
Proof.
  apply leaves_file_raise_if. intros w. destruct (temp_dir w); reflexivity.
Qed.

Lemma leaves_file_process_chunks (path : text) (n : nat) (chunks : list chunk) :
  forall (i : nat) (l : locals), leaves_file path (process_chunks n i chunks l).
Proof.
  induction chunks as [|c chunks IH]; intros i l; simpl.
  - apply leaves_file_ret.
  - apply leaves_file_bind; [|intros l'; apply IH].
    unfold process_chunk, chunk_times.
    apply leaves_file_bind; [apply leaves_file_export|]. intros _.
    destruct (recognized c) as [[|a t]| |e];
      repeat first [apply leaves_file_ret | apply leaves_file_callback
                   | apply leaves_file_bind; [|intros _]].
Qed.

(** X6. Whatever happens, a run changes no file but its two outputs. *)
Theorem other_files_untouched (E : env)
  (mp3_path output_txt_path output_srt_path language content_type : text)
  (w : world) (path : text) :
  path <> output_txt_path -> path <> output_srt_path ->
  files (transcribe_mp3_to_text_and_srt E mp3_path output_txt_path
           output_srt_path language content_type w).2 !! path
  = files w !! path.
Proof.
  intros Htxt Hsrt.
  assert (H : leaves_file path
                (transcribe_body E mp3_path output_txt_path output_srt_path
                   language content_type)).
  { unfold transcribe_body.
    do 4 (apply leaves_file_bind; [apply leaves_file_callback|intros _]).
    apply leaves_file_bind;
      [destruct (audio E); [intros w0; reflexivity|apply leaves_file_ret]|].
    intros chunks.
    apply leaves_file_bind; [apply leaves_file_callback|intros _].
    apply leaves_file_bind; [apply leaves_file_make_temp_dir|intros _].
    apply leaves_file_bind; [apply leaves_file_callback|intros _].
    apply leaves_file_bind; [apply leaves_file_process_chunks|intros l].
    apply leaves_file_bind.
    - destruct (segment_texts l);
        repeat first [apply leaves_file_callback
                     | apply leaves_file_write_file; congruence
                     | apply leaves_file_bind; [|intros _]].
    - intros _.
      apply leaves_file_bind; [apply leaves_file_clean_up|intros _].
      apply leaves_file_bind; [apply leaves_file_callback|intros _].
      apply leaves_file_ret. }
  unfold transcribe_mp3_to_text_and_srt. specialize (H w).
  destruct (transcribe_body E mp3_path output_txt_path output_srt_path
              language content_type w) as [[e|b] w']; exact H.
Qed.

(** ** Runs that stop early *)

(** X7. When the audio file cannot be loaded, the run reports the exception and
    returns [False]; it has created no directory and written no file. *)
Theorem load_failure (E : env) (e : text)
  (mp3_path output_txt_path output_srt_path language content_type : text)
  (w : world) :
  audio E = inl e ->
  transcribe_mp3_to_text_and_srt E mp3_path output_txt_path output_srt_path
    language content_type w
  = (false,
     World (temp_dir w) (files w)
       (log w
        ++ [str "Processing MP3 file: " ++ mp3_path;
            str "Selected language: " ++ language;
            str "Content type: " ++ content_type;
            str "Loading audio file...";
            str "Error during transcription: " ++ e])).
Proof.
  intros Haudio. unfold transcribe_mp3_to_text_and_srt, transcribe_body.
  do 4 callback. rewrite Haudio.
  erewrite bind_raise by reflexivity. cbn [temp_dir files log].
  rewrite <- !app_assoc. reflexivity.
Qed.

(** X8. When the subtitle file cannot be opened, the run returns [False] with
    the transcript already written, the subtitle file as it was, and the
    scratch directory still there. *)
Theorem subtitle_open_failure (E : env) (chunks : list chunk) (e : text)
  (mp3_path output_txt_path output_srt_path language content_type : text)
  (w : world) :
  audio E = inr chunks ->
  mkdir_error E = None ->
  Forall (fun c => export_error c = None) chunks ->
  open_error E output_txt_path = None ->
  open_error E output_srt_path = Some e ->
  let r := transcribe_mp3_to_text_and_srt E mp3_path output_txt_path
             output_srt_path language content_type w in
  r.1 = false
  /\ files r.2 = <[output_txt_path := (artifacts chunks).1]> (files w)
  /\ is_Some (temp_dir r.2)
  /\ last (log r.2) = Some (str "Error during transcription: " ++ e).
Proof.
  intros Haudio Hmkdir Hexp Htxt Hsrt. cbv zeta.
  unfold transcribe_mp3_to_text_and_srt, transcribe_body.
  do 4 callback.
  rewrite Haudio. erewrite bind_ok by reflexivity. callback.
  match goal with |- context [bind (make_temp_dir E) _ ?w0] =>
    destruct (make_temp_dir_ok E w0 Hmkdir) as (w1 & E1 & [names D1] & F1)
  end.
  erewrite bind_ok by exact E1. callback.
  match goal with |- context [bind (process_chunks ?n 0 chunks ?l) _ ?w0] =>
    destruct (process_chunks_ok n chunks 0%nat l w0 names Hexp D1)
      as (w2 & E2 & F2 & D2)
  end.
  erewrite bind_ok by exact E2.
  cbn [segment_texts subtitle_entries current_position app].
  unfold artifacts.
  assert (Hraise : forall content,
            write_file E output_srt_path content
            = raise e).
  { intros content. unfold write_file, raise_if. rewrite Hsrt. reflexivity. }
  destruct (texts_of chunks) as [|t ts] eqn:Ht.
  - erewrite bind_raise; cycle 1.
    { erewrite bind_ok by (apply write_file_ok; exact Htxt).
      rewrite Hraise. erewrite bind_raise by reflexivity. reflexivity. }
    simpl. rewrite F2, F1, last_snoc. auto.
  - erewrite bind_raise; cycle 1.
    { erewrite bind_ok by (apply write_file_ok; exact Htxt).
      rewrite Hraise. erewrite bind_raise by reflexivity. reflexivity. }
    simpl. rewrite F2, F1, last_snoc. auto.
Qed.

(** ** What the returned value tells *)

Lemma bind_inv {A B} (m : M A) (k : A -> M B) (w w' : world) (b : B) :
  bind m k w = (inr b, w') ->
  exists (a : A) (w1 : world), m w = (inr a, w1) /\ k a w1 = (inr b, w').
Proof.
  unfold bind. destruct (m w) as [[e|a] w1]; [discriminate|]. eauto.
Qed.

Lemma write_file_inv (E : env) (path content : text) (w w' : world) (u : unit) :
  write_file E path content w = (inr u, w') ->
  open_error E path = None
  /\ w' = World (temp_dir w) (<[path := content]> (files w)) (log w).
Proof.
  unfold write_file, raise_if, raise.
  destruct (open_error E path); [discriminate|]. intros [= _ <-]. auto.
Qed.

Lemma clean_up_inv (E : env) (w w' : world) (u : unit) :
  clean_up E w = (inr u, w') ->
  cleanup_error E = None
  /\ w' = World None (files w) (log w).
Proof.
  unfold clean_up, raise_if, raise.
  destruct (cleanup_error E); [discriminate|].
  destruct (temp_dir w); [|discriminate]. intros [= _ <-]. auto.
Qed.

Lemma make_temp_dir_inv (E : env) (w w' : world) (u : unit) :
  make_temp_dir E w = (inr u, w') -> files w' = files w.
Proof.
  unfold make_temp_dir, raise_if, raise.
  destruct (temp_dir w); [intros [= _ <-]; reflexivity|].
  destruct (mkdir_error E); [discriminate|]. intros [= _ <-]. reflexivity.
Qed.

(** The [try] block returns nothing but [True], and only after it has
    written both files, removed the scratch directory and said so. *)
Lemma transcribe_body_inv (E : env)
  (mp3_path output_txt_path output_srt_path language content_type : text)
  (w w' : world) (b : bool) :
  transcribe_body E mp3_path output_txt_path output_srt_path language
    content_type w = (inr b, w') ->
  b = true
  /\ exists chunks : list chunk,
       audio E = inr chunks
       /\ Forall (fun c => export_error c = None) chunks
       /\ open_error E output_txt_path = None
       /\ open_error E output_srt_path = None
       /\ cleanup_error E = None
       /\ temp_dir w' = None
       /\ files w'
          = <[output_srt_path := (artifacts chunks).2]>
              (<[output_txt_path := (artifacts chunks).1]> (files w))
       /\ last (log w') = Some (str "Transcription complete!").
Proof.
  unfold transcribe_body. intros H.
  do 4 (apply bind_inv in H as ([] & ? & [= <-] & H)).
  apply bind_inv in H as (chunks & w1 & Ha & H).
  destruct (audio E) as [e|chunks'] eqn:Haudio; [discriminate|].
  injection Ha as -> <-.
  apply bind_inv in H as ([] & ? & [= <-] & H).
  apply bind_inv in H as ([] & w2 & Hm & H).
  apply make_temp_dir_inv in Hm. simpl in Hm.
  apply bind_inv in H as ([] & ? & [= <-] & H).
  apply bind_inv in H as (l & w3 & Hl & H).
  apply process_chunks_inv in Hl as (-> & Hexp & F3). simpl in F3, H.
  apply bind_inv in H as ([] & w4 & Hw & H).
  apply bind_inv in H as ([] & w5 & Hc & H).
  apply clean_up_inv in Hc as (Hclean & ->).
  apply bind_inv in H as ([] & ? & [= <-] & H).
  injection H as <- <-. split; [reflexivity|].
  exists chunks. unfold artifacts.
  destruct (texts_of chunks) as [|t ts] eqn:Ht.
  - apply bind_inv in Hw as ([] & w6 & H1 & Hw).
    apply write_file_inv in H1 as (Htxt & ->).
    apply bind_inv in Hw as ([] & w7 & H2 & Hw).
    apply write_file_inv in H2 as (Hsrt & ->).
    injection Hw as <-. simpl. rewrite last_snoc, F3, Hm. auto 10.
  - apply bind_inv in Hw as ([] & w6 & H1 & Hw).
    apply write_file_inv in H1 as (Htxt & ->).
    apply bind_inv in Hw as ([] & w7 & H2 & Hw).
    apply write_file_inv in H2 as (Hsrt & ->).
    apply bind_inv in Hw as ([] & ? & [= <-] & Hw).
    injection Hw as <-. simpl. rewrite last_snoc, F3, Hm. auto 10.
Qed.

(** X9. A run that returns [True] has loaded the audio, written both files as
    the recognized chunks dictate, removed the scratch directory, and its
    last message is Transcription complete!. *)
Theorem true_means_written (E : env)
  (mp3_path output_txt_path output_srt_path language content_type : text)
  (w : world) :
  let r := transcribe_mp3_to_text_and_srt E mp3_path output_txt_path
             output_srt_path language content_type w in
  r.1 = true ->
  exists chunks : list chunk,
    audio E = inr chunks
    /\ temp_dir r.2 = None
    /\ files r.2
       = <[output_srt_path := (artifacts chunks).2]>
           (<[output_txt_path := (artifacts chunks).1]> (files w))
    /\ last (log r.2) = Some (str "Transcription complete!").
Proof.
  cbv zeta. unfold transcribe_mp3_to_text_and_srt.
  destruct (transcribe_body E mp3_path output_txt_path output_srt_path
              language content_type w) as [[e|b] w'] eqn:Hbody;
    [discriminate|].
  intros _. apply transcribe_body_inv in Hbody
    as (_ & chunks & Ha & _ & _ & _ & _ & Hd & Hf & Hl).
  exists chunks. simpl. auto.
Qed.


(** ** The chunk files *)

Lemma chunk_filename_inj (i j : nat) :
  chunk_filename i = chunk_filename j -> i = j.
Proof.
  unfold chunk_filename. intros H.
  apply app_inv_head, app_inv_tail, str_of_int_inj in H. lia.
Qed.

Lemma process_chunks_dir (n : nat) (chunks : list chunk) :
  forall (i : nat) (l l' : locals) (w w' : world) (names : gset text),
    process_chunks n i chunks l w = (inr l', w') ->
    temp_dir w = Some names ->
    temp_dir w' = Some (chunk_filenames i (length chunks) ∪ names).
Proof.
  induction chunks as [|c chunks IH]; intros i l l' w w' names H Hd.
  - injection H as _ <-. rewrite Hd. f_equal. unfold chunk_filenames. simpl.
    rewrite (left_id_L ∅ (∪)). reflexivity.
  - simpl in H. unfold bind at 1 in H.
    destruct (process_chunk n i c l w) as [[e|l1] w1] eqn:E1; [discriminate|].
    apply process_chunk_inv in E1 as (_ & _ & _ & names' & Hd' & Hd1).
    rewrite Hd in Hd'. injection Hd' as <-.
    rewrite (IH _ _ _ _ _ _ H Hd1). f_equal.
    unfold chunk_filenames. simpl.
    rewrite (assoc_L (∪)), (comm_L (∪) _ {[chunk_filename i]}). reflexivity.
Qed.

(** X11. A loop that ends has put one file per chunk into the scratch directory,
    named chunk0.wav, chunk1.wav and so on, all different. *)
Theorem one_file_per_chunk (n : nat) (chunks : list chunk)
  (l : locals) (w w' : world) (names : gset text) :
  temp_dir w = Some names ->
  process_chunks n 0 chunks (Locals 0 [] []) w = (inr l, w') ->
  temp_dir w' = Some (chunk_filenames 0 (length chunks) ∪ names)
  /\ size (chunk_filenames 0 (length chunks)) = length chunks
  /\ forall k : nat,
       chunk_filename k ∈ chunk_filenames 0 (length chunks)
       <-> (k < length chunks)%nat.
Proof.
  intros Hd Hrun. split; [exact (process_chunks_dir _ _ _ _ _ _ _ _ Hrun Hd)|].
  unfold chunk_filenames. split.
  - rewrite size_list_to_set, length_map, length_seq; [reflexivity|].
    apply NoDup_fmap_2; [|apply NoDup_seq].
    intros i j. apply chunk_filename_inj.
  - intros k. rewrite elem_of_list_to_set, list_elem_of_fmap. split.
    + intros (j & Hj & Hin). apply chunk_filename_inj in Hj. subst j.
      apply elem_of_seq in Hin. lia.
    + intros Hk. exists k. split; [reflexivity|]. apply elem_of_seq. lia.
Qed.

(** ** A chunk that cannot be exported, a clean-up that fails *)





(** X13. When the clean-up raises, the run returns [False] although both output
    files are complete; the scratch directory stays. *)
Theorem cleanup_failure (E : env) (chunks : list chunk) (e : text)
  (mp3_path output_txt_path output_srt_path language content_type : text)
  (w : world) :
  audio E = inr chunks ->
  mkdir_error E = None ->
  Forall (fun c => export_error c = None) chunks ->
  open_error E output_txt_path = None ->
  open_error E output_srt_path = None ->
  cleanup_error E = Some e ->
  let r := transcribe_mp3_to_text_and_srt E mp3_path output_txt_path
             output_srt_path language content_type w in
  r.1 = false
  /\ files r.2
     = <[output_srt_path := (artifacts chunks).2]>
         (<[output_txt_path := (artifacts chunks).1]> (files w))
  /\ is_Some (temp_dir r.2)
  /\ last (log r.2) = Some (str "Error during transcription: " ++ e).
Proof.
  intros Haudio Hmkdir Hexp Htxt Hsrt Hclean. cbv zeta.
  unfold transcribe_mp3_to_text_and_srt, transcribe_body.
  do 4 callback.
  rewrite Haudio. erewrite bind_ok by reflexivity. callback.
  match goal with |- context [bind (make_temp_dir E) _ ?w0] =>
    destruct (make_temp_dir_ok E w0 Hmkdir) as (w1 & E1 & [names D1] & F1)
  end.
  erewrite bind_ok by exact E1. callback.
  match goal with |- context [bind (process_chunks ?n 0 chunks ?l) _ ?w0] =>
    destruct (process_chunks_ok n chunks 0%nat l w0 names Hexp D1)
      as (w2 & E2 & F2 & D2)
  end.
  erewrite bind_ok by exact E2.
  cbn [segment_texts subtitle_entries current_position app].
  unfold artifacts.
  assert (Hraise : forall w0, clean_up E w0 = (inl e, w0)).
  { intros w0. unfold clean_up, raise_if. rewrite Hclean. reflexivity. }
  destruct (texts_of chunks) as [|t ts] eqn:Ht.
  - erewrite bind_ok; cycle 1.
    { erewrite bind_ok by (apply write_file_ok; exact Htxt).
      erewrite bind_ok by (apply write_file_ok; exact Hsrt).
      reflexivity. }
    erewrite bind_raise by apply Hraise.
    simpl. rewrite F2, F1, last_snoc. auto.
  - erewrite bind_ok; cycle 1.
    { erewrite bind_ok by (apply write_file_ok; exact Htxt).
      erewrite bind_ok by (apply write_file_ok; exact Hsrt).
      callback. reflexivity. }
    erewrite bind_raise by apply Hraise.
    simpl. rewrite F2, F1, last_snoc. auto.
Qed.

(** ** What the formatter keeps *)

Lemma upper_facts (c : ascii) :
  islower (upper c) = false
  /\ isspace (upper c) = isspace c
  /\ upper (upper c) = upper c.
Proof.
  destruct c as [[] [] [] [] [] [] [] []]; repeat split; reflexivity.
Qed.

Lemma islower_not_space (c : ascii) : islower c = true -> isspace c = false.
Proof.
  destruct c as [[] [] [] [] [] [] [] []]; intros H;
    first [reflexivity|discriminate H].
Qed.

Lemma capitalize_first_visible (s : text) :
  map upper (nonspace (capitalize_first s)) = map upper (nonspace s).
Proof.
  destruct s as [|c s]; [reflexivity|]. simpl.
  destruct (islower c) eqn:Hc; [|reflexivity].
  destruct (upper_facts c) as (_ & Hs & Hu).
  unfold nonspace. simpl. rewrite Hs, (islower_not_space c Hc). simpl.
  rewrite Hu. reflexivity.
Qed.

Lemma capitalize_first_head (s : text) (c : ascii) :
  head (capitalize_first s) = Some c -> islower c = false.
Proof.
  destruct s as [|d s]; [discriminate|]. simpl.
  destruct (islower d) eqn:Hd; intros [= <-]; [apply upper_facts|exact Hd].
Qed.

Lemma strip_blank (s : text) : blank s -> strip s = [].
Proof.
  intros H. unfold strip.
  assert (Hl : lstrip s = []).
  { induction H as [|c s Hc _ IH]; [reflexivity|]. simpl. rewrite Hc. exact IH. }
  rewrite Hl. reflexivity.
Qed.

Lemma nonspace_nil_blank (s : text) : nonspace s = [] -> blank s.
Proof.
  induction s as [|c s IH]; [constructor|]. unfold nonspace. simpl.
  destruct (isspace c) eqn:Hc; simpl; [|discriminate].
  intros H. constructor; [exact Hc|exact (IH H)].
Qed.

(** What the formatter keeps of its input, whatever the input: the
    characters that are not whitespace, after the two capitalization
    passes. *)
Lemma nonspace_format_general (x : text) :
  nonspace (format_transcription x)
  = concat (map nonspace
              (map capitalize_first
                 (re_split_sentences (capitalize_first (strip x))))).
Proof.
  unfold format_transcription. destruct x as [|a x]; [reflexivity|].
  rewrite nonspace_paragraphs. unfold re_split_sentences at 1.
  rewrite nonspace_re_split, nonspace_textwrap_fill by lia.
  apply nonspace_join. repeat constructor.
Qed.

Lemma sentences_visible (s : text) :
  map upper
    (concat (map nonspace
               (map capitalize_first
                  (re_split_sentences (capitalize_first s)))))
  = map upper (nonspace s).
Proof.
  rewrite <- (capitalize_first_visible s).
  unfold re_split_sentences.
  rewrite <- (nonspace_re_split (capitalize_first s) Elsewhere).
  induction (re_split_from Elsewhere (capitalize_first s))
    as [|p pieces IH]; [reflexivity|].
  simpl. rewrite !map_app, IH, capitalize_first_visible. reflexivity.
Qed.


(** X15. The output is empty exactly when the input holds nothing but
    whitespace. *)
Theorem format_blank (x : text) : format_transcription x = [] <-> blank x.
Proof.
  split.
  - intros H. apply nonspace_nil_blank.
    pose proof (nonspace_format_general x) as Hg. rewrite H in Hg.
    pose proof (sentences_visible (strip x)) as Hv. rewrite <- Hg in Hv.
    simpl in Hv. symmetry in Hv. apply map_eq_nil in Hv.
    rewrite nonspace_strip in Hv. exact Hv.
  - intros H. unfold format_transcription. destruct x as [|a x]; [reflexivity|].
    rewrite (strip_blank _ H). reflexivity.
Qed.


(** ** Line width *)

Lemma narrow_short (n : nat) (s : text) : (length s <= n)%nat -> narrow n s.
Proof.
  intros H a l b -> _. rewrite !length_app in H. lia.
Qed.

Lemma narrow_factor (n : nat) (a s b : text) :
  narrow n (a ++ s ++ b) -> narrow n s.
Proof.
  intros H a' l b' -> Hl. apply (H (a ++ a') l (b' ++ b)); [|exact Hl].
  rewrite <- !app_assoc. reflexivity.
Qed.

Lemma narrow_app_LF (n : nat) (a b : text) :
  narrow n a -> narrow n b -> narrow n (a ++ LF :: b).
Proof.
  intros Ha Hb u l v Heq Hl.
  rewrite (app_assoc u l v) in Heq.
  apply app_eq_app in Heq as [k [[H1 H2]|[H1 H2]]].
  - apply (Ha u l k); [|exact Hl]. rewrite H1, <- app_assoc. reflexivity.
  - destruct k as [|c k].
    + apply (Ha u l []); [|exact Hl]. rewrite app_nil_r in H1 |- *. done.
    + injection H2 as <- H2.
      apply app_eq_app in H1 as [m [[H3 H4]|[H3 H4]]].
      * destruct m as [|d m].
        -- exfalso. simpl in H4. rewrite <- H4 in Hl.
           apply Forall_cons in Hl as [Hl _]. done.
        -- injection H4 as <- H4. apply (Hb m l v); [|exact Hl].
           rewrite H2, H4, <- app_assoc. reflexivity.
      * exfalso. rewrite H4 in Hl. apply Forall_app in Hl as [_ Hl].
        apply Forall_cons in Hl as [Hl _]. done.
Qed.

Lemma narrow_nil (n : nat) : narrow n [].
Proof. apply narrow_short. simpl. lia. Qed.

Lemma narrow_join (n : nat) (lines : list text) :
  Forall (fun l => (length l <= n)%nat) lines -> narrow n (join [LF] lines).
Proof.
  induction 1 as [|l lines Hl _ IH]; [apply narrow_nil|].
  destruct lines as [|l' lines]; [apply narrow_short; exact Hl|].
  change (join [LF] (l :: l' :: lines)) with (l ++ LF :: join [LF] (l' :: lines)).
  apply narrow_app_LF; [apply narrow_short; exact Hl|exact IH].
Qed.

(** Every line of [split_lines] is a stretch of the text without a line
    feed, the first one at the start of the text. *)
Lemma split_lines_factor (s : text) :
  match split_lines s with
  | p :: ps =>
      (Forall (fun c => c <> LF) p /\ exists b, s = p ++ b)
      /\ Forall (fun l => Forall (fun c => c <> LF) l
                          /\ exists a b, s = a ++ l ++ b) ps
  | [] => False
  end.
Proof.
  induction s as [|c s IH]; simpl.
  - repeat split; [constructor|exists []; reflexivity|constructor].
  - destruct (split_lines s) as [|p ps]; [done|].
    destruct IH as [[Hp [b Hb]] Hps].
    assert (Hps' : Forall (fun l => Forall (fun c => c <> LF) l
                          /\ exists a b, c :: s = a ++ l ++ b) ps).
    { eapply Forall_impl; [exact Hps|]. intros l [Hl (a & b' & Hab)].
      split; [exact Hl|]. exists (c :: a), b'. rewrite Hab. reflexivity. }
    destruct (Ascii.eqb_spec c LF) as [->|Hc]; simpl.
    + repeat split; [constructor|exists (LF :: s); reflexivity|].
      constructor; [|exact Hps'].
      split; [exact Hp|]. exists [LF], b. rewrite Hb. reflexivity.
    + repeat split; [constructor; assumption| |exact Hps'].
      exists b. rewrite Hb. reflexivity.
Qed.

Lemma narrow_split_lines (n : nat) (s : text) :
  narrow n s -> Forall (fun l => (length l <= n)%nat) (split_lines s).
Proof.
  intros H. pose proof (split_lines_factor s) as Hf.
  destruct (split_lines s) as [|p ps]; [done|].
  destruct Hf as [[Hp [b Hb]] Hps]. constructor.
  - apply (H [] p b); [exact Hb|exact Hp].
  - eapply Forall_impl; [exact Hps|]. intros l [Hl (a & b' & Hab)].
    apply (H a l b'); assumption.
Qed.

(** ** The lines of [textwrap.fill] *)

Lemma handle_long_word_fits (width cur_len : nat) (cur_line chunks : list text) :
  (1 <= width)%nat -> (cur_len <= width)%nat ->
  length (concat cur_line) = cur_len ->
  (length (concat (handle_long_word width cur_len cur_line chunks).1)
   <= width)%nat.
Proof.
  intros Hw Hcur Hlen. unfold handle_long_word.
  destruct chunks as [|chunk chunks]; [simpl; lia|].
  destruct (Nat.ltb_spec width 1) as [|_]; [lia|].
  cbn [fst]. rewrite concat_app, length_app. simpl. rewrite app_nil_r, length_take.
  destruct (Nat.ltb_spec (width - cur_len) (length chunk)) as [_|]; [|lia].
  destruct (rfind_hyphen chunk (width - cur_len)) as [hyphen|] eqn:Hh; [|lia].
  unfold rfind_hyphen in Hh. apply rfind_from_bound in Hh.
  rewrite length_take in Hh.
  destruct ((0 <? hyphen)%nat
            && existsb (fun c => negb (is_hyphen c)) (take hyphen chunk)); lia.
Qed.

Lemma length_concat_removelast (l : list text) :
  (length (concat (removelast l)) <= length (concat l))%nat.
Proof.
  destruct (last l) as [x|] eqn:Hl.
  - apply last_Some in Hl as [l' ->].
    rewrite removelast_last, concat_app, length_app. lia.
  - apply last_None in Hl as ->. simpl. lia.
Qed.

(** No line is longer than the width. *)
Lemma wrap_line_width (width : nat) (started : bool) (chunks : list text) :
  (1 <= width)%nat ->
  (length (default [] (wrap_line width started chunks).1) <= width)%nat.
Proof.
  intros Hw. unfold wrap_line.
  set (chunks1 := match chunks with
                  | chunk :: chunks' =>
                      if is_blank chunk && started then chunks' else chunks
                  | [] => []
                  end).
  clearbody chunks1.
  pose proof (take_fitting_spec width chunks1 0) as Htake.
  destruct (take_fitting width 0 chunks1) as [[cur_line cur_len] rest].
  destruct Htake as (_ & Hlen & Hfit & _).
  specialize (Hfit (Nat.le_0_l _)). simpl in Hlen.
  assert (H : forall p : list text * list text,
             (length (concat p.1) <= width)%nat ->
             (length
                (default []
                   (let '(cur_line, chunks) := p in
                    let cur_line :=
                      match last cur_line with
                      | Some chunk =>
                          if is_blank chunk then removelast cur_line else cur_line
                      | None => cur_line
                      end in
                    (if cur_line is [] then None else Some (concat cur_line),
                     chunks)).1) <= width)%nat).
  { intros [cl r] Hcl. simpl in Hcl.
    assert (Hrm : (length (concat
               match last cl with
               | Some chunk => if is_blank chunk then removelast cl else cl
               | None => cl
               end) <= width)%nat).
    { destruct (last cl) as [chunk|]; [|exact Hcl].
      destruct (is_blank chunk); [|exact Hcl].
      pose proof (length_concat_removelast cl). lia. }
    destruct (match last cl with
              | Some chunk => if is_blank chunk then removelast cl else cl
              | None => cl
              end); simpl in *; lia. }
  apply H.
  destruct rest as [|chunk rest0]; [simpl; lia|].
  destruct (width <? length chunk)%nat; [|simpl; lia].
  apply handle_long_word_fits; [exact Hw|exact Hfit|lia].
Qed.

Lemma wrap_chunks_from_width (width : nat) (fuel : nat) :
  (1 <= width)%nat ->
  forall lines chunks : list text,
    Forall (fun l => (length l <= width)%nat) lines ->
    Forall (fun l => (length l <= width)%nat)
      (wrap_chunks_from fuel width lines chunks).
Proof.
  intros Hw. induction fuel as [|fuel IH]; intros lines chunks Hl;
    [exact Hl|].
  destruct chunks as [|chunk chunks]; [exact Hl|].
  cbn [wrap_chunks_from].
  pose proof (wrap_line_width width (if lines is [] then false else true)
                (chunk :: chunks) Hw) as Hline.
  destruct (wrap_line width (if lines is [] then false else true)
              (chunk :: chunks)) as [line chunks'].
  apply IH. destruct line as [l|]; [|exact Hl].
  apply Forall_app. split; [exact Hl|]. constructor; [exact Hline|constructor].
Qed.

(** [textwrap.fill] gives lines of at most [width] characters. *)
Lemma narrow_textwrap_fill (s : text) (width : nat) :
  (1 <= width)%nat -> narrow width (textwrap_fill s width).
Proof.
  intros Hw. unfold textwrap_fill, wrap_chunks.
  apply narrow_join, wrap_chunks_from_width; [exact Hw|constructor].
Qed.

(** ** The sentences are stretches of the wrapped text *)

Lemma re_split_factor (s : text) :
  forall st : split_state,
    match re_split_from st s with
    | p :: ps =>
        (exists a b, s = a ++ p ++ b /\ (st <> InMatch -> a = []))
        /\ Forall (fun q => exists a b, s = a ++ q ++ b) ps
    | [] => False
    end.
Proof.
  induction s as [|c s IH]; intros st.
  - simpl. split; [exists [], []; done|constructor].
  - assert (Hlift : forall ps : list text,
              Forall (fun q => exists a b, s = a ++ q ++ b) ps ->
              Forall (fun q => exists a b, c :: s = a ++ q ++ b) ps).
    { intros ps H. eapply Forall_impl; [exact H|]. intros q (a & b & Hab).
      exists (c :: a), b. rewrite Hab. reflexivity. }
    assert (Hpush : forall st',
              st' <> InMatch ->
              match push c (re_split_from st' s) with
              | p :: ps =>
                  (exists a b, c :: s = a ++ p ++ b /\ (st <> InMatch -> a = []))
                  /\ Forall (fun q => exists a b, c :: s = a ++ q ++ b) ps
              | [] => False
              end).
    { intros st' Hst. specialize (IH st').
      destruct (re_split_from st' s) as [|p ps]; [done|].
      destruct IH as [(a & b & Hab & Ha) Hps]. rewrite (Ha Hst) in Hab.
      simpl. split; [|apply Hlift, Hps].
      exists [], b. rewrite Hab. done. }
    assert (Hsa : state_after c <> InMatch).
    { unfold state_after. destruct (is_terminal c); discriminate. }
    destruct st; cbn [re_split_from]; try destruct (isspace c);
      try (apply Hpush, Hsa).
    + specialize (IH InMatch).
      destruct (re_split_from InMatch s) as [|p ps]; [done|].
      destruct IH as [(a & b & Hab & _) Hps]. split; [|apply Hlift, Hps].
      exists (c :: a), b. rewrite Hab. done.
    + specialize (IH InMatch).
      destruct (re_split_from InMatch s) as [|p ps]; [done|].
      destruct IH as [(a & b & Hab & _) Hps].
      split; [exists [], (c :: s); done|].
      apply Hlift. constructor; [|exact Hps]. exists a, b. exact Hab.
Qed.

Lemma narrow_strip (n : nat) (s : text) : narrow n s -> narrow n (strip s).
Proof.
  destruct (strip_spec s) as (ws1 & ws2 & _ & _ & Hs & _).
  intros H. rewrite Hs in H. exact (narrow_factor _ _ _ _ H).
Qed.

Lemma narrow_snoc_space (n : nat) (s : text) :
  narrow n s -> narrow n (strip (s ++ str " ")).
Proof.
  intros H.
  destruct (strip_spec (s ++ str " ")) as (ws1 & ws2 & _ & _ & Hs & Hend).
  set (u := strip (s ++ str " ")) in *. clearbody u.
  destruct (last u) as [c|] eqn:Hl;
    [|apply last_None in Hl as ->; apply narrow_nil].
  specialize (Hend c eq_refl).
  destruct ws2 as [|w ws2 _] using rev_ind.
  - apply last_Some in Hl as [u' ->].
    rewrite app_nil_r, app_assoc in Hs. apply app_inj_tail in Hs as [_ <-].
    discriminate Hend.
  - rewrite !app_assoc in Hs. apply app_inj_tail in Hs as [Hs _].
    rewrite <- app_assoc in Hs. rewrite Hs in H.
    exact (narrow_factor _ _ _ _ H).
Qed.

Lemma closed_lines_app (n : nat) (ft x : text) :
  closed_lines n ft -> narrow n x -> narrow n (ft ++ x).
Proof.
  intros [->|(ft' & -> & Hft)] Hx; [exact Hx|].
  rewrite <- app_assoc. apply narrow_app_LF; assumption.
Qed.

Lemma closed_lines_break (n : nat) (ft x : text) :
  closed_lines n ft -> narrow n x -> closed_lines n (ft ++ x ++ [LF; LF]).
Proof.
  intros Hft Hx. right. exists (ft ++ x ++ [LF]). split.
  - rewrite <- !app_assoc. reflexivity.
  - apply closed_lines_app; [exact Hft|].
    apply narrow_app_LF; [exact Hx|apply narrow_nil].
Qed.

Lemma closed_lines_narrow (n : nat) (ft : text) :
  closed_lines n ft -> narrow n ft.
Proof.
  intros H. rewrite <- (app_nil_r ft).
  apply closed_lines_app; [exact H|apply narrow_nil].
Qed.

(** When all sentences but the last end with a terminal mark, every
    sentence is a paragraph of its own, so no line grows. *)
Lemma paragraph_loop_narrow (n : nat) (sentences : list text) :
  forall (i : nat) (ft : text),
    all_but_last ends_terminal sentences ->
    Forall (narrow n) sentences ->
    closed_lines n ft ->
    narrow n (let '(ft', p) := paragraph_loop i sentences (ft, []) in
              if p is [] then ft' else ft' ++ strip p).
Proof.
  induction sentences as [|s sentences IH]; intros i ft Hend Hn Hft.
  { apply closed_lines_narrow, Hft. }
  apply Forall_cons in Hn as [Hs Hn].
  cbn [paragraph_loop]. unfold paragraph_step. cbn [app].
  destruct sentences as [|q sentences].
  - cbn [paragraph_loop].
    destruct (((Z.of_nat i + 1) mod 4 =? 0) || re_search_terminal s).
    + apply closed_lines_narrow, closed_lines_break;
        [exact Hft|apply narrow_snoc_space, Hs].
    + destruct (s ++ str " ") eqn:E; [destruct s; discriminate|].
      rewrite <- E. apply closed_lines_app;
        [exact Hft|apply narrow_snoc_space, Hs].
  - destruct Hend as [He Hend].
    rewrite (ends_terminal_search s He), orb_true_r.
    apply IH; [exact Hend|exact Hn|].
    apply closed_lines_break; [exact Hft|apply narrow_snoc_space, Hs].
Qed.

Lemma re_split_sentences_ends (s : text) :
  all_but_last ends_terminal (re_split_sentences s).
Proof.
  unfold re_split_sentences. pose proof (re_split_ends s Elsewhere) as H.
  destruct (re_split_from Elsewhere s) as [|p [|q pieces]]; [exact I|exact I|].
  destruct H as [[H|[H _]] Hrest]; [|discriminate]. split; assumption.
Qed.

Lemma re_split_sentences_narrow (n : nat) (s : text) :
  narrow n s -> Forall (narrow n) (re_split_sentences s).
Proof.
  intros H. unfold re_split_sentences.
  pose proof (re_split_factor s Elsewhere) as Hf.
  destruct (re_split_from Elsewhere s) as [|p ps]; [done|].
  destruct Hf as [(a & b & Hab & _) Hps]. constructor.
  - rewrite Hab in H. exact (narrow_factor _ _ _ _ H).
  - eapply Forall_impl; [exact Hps|]. intros q (a' & b' & Hq).
    rewrite Hq in H. exact (narrow_factor _ _ _ _ H).
Qed.

(** X17. No line of the formatted text is longer than 80 characters, whatever
    the input. *)
Theorem format_line_width (x : text) :
  Forall (fun line => (length line <= 80)%nat)
    (split_lines (format_transcription x)).
Proof.
  apply narrow_split_lines. unfold format_transcription.
  destruct x as [|a x]; [apply narrow_nil|].
  cbv zeta. unfold paragraphs.
  apply (paragraph_loop_narrow 80 _ 0 []).
  - apply re_split_sentences_ends.
  - apply re_split_sentences_narrow, narrow_textwrap_fill. lia.
  - left. reflexivity.
Qed.

(** ** Output paths *)

Lemma after_last_absent (c : ascii) (s : text) :
  Forall (fun d => d <> c) s -> after_last c s = 0%nat.
Proof.
  induction 1 as [|d s Hd _ IH]; [reflexivity|]. simpl. rewrite IH.
  destruct (Ascii.eqb_spec d c); [done|reflexivity].
Qed.

Lemma after_last_app (c : ascii) (a b : text) :
  Forall (fun d => d <> c) b ->
  after_last c (a ++ c :: b) = S (length a).
Proof.
  intros Hb. induction a as [|d a IH]; simpl.
  - rewrite (after_last_absent c b Hb), Ascii.eqb_refl. reflexivity.
  - rewrite IH. reflexivity.
Qed.

Lemma basename_no_sep (p : text) : Forall (fun c => c <> "/"%char) (basename p).
Proof.
  unfold basename. induction p as [|d p IH]; [constructor|]. simpl.
  destruct (after_last "/" p) as [|j] eqn:Hj.
  - simpl in IH. destruct (Ascii.eqb_spec d "/") as [->|Hd]; simpl.
    + exact IH.
    + constructor; assumption.
  - exact IH.
Qed.

Lemma splitext_app (p : text) : (splitext p).1 ++ (splitext p).2 = p.
Proof.
  unfold splitext. destruct (after_last "." p) as [|dotIndex];
    [apply app_nil_r|].
  destruct ((after_last "/" p <=? dotIndex)%nat && _);
    [apply take_drop|apply app_nil_r].
Qed.

Lemma path_join_relative (a b : text) :
  head b <> Some "/"%char -> path_join a b = dir_prefix a ++ b.
Proof.
  intros Hb. unfold path_join, dir_prefix.
  assert (H : match last a with
              | Some c => if (c =? "/")%char then a ++ b else a ++ "/"%char :: b
              | None => b
              end
              = match last a with
                | Some c => if (c =? "/")%char then a else a ++ ["/"%char]
                | None => []
                end ++ b).
  { destruct (last a) as [c|]; [|reflexivity].
    destruct (c =? "/")%char; [reflexivity|].
    rewrite <- app_assoc. reflexivity. }
  rewrite <- H.
  destruct b as [|c b]; [reflexivity|].
  destruct (Ascii.eqb_spec c "/") as [->|Hc]; [done|].
  destruct c as [[] [] [] [] [] [] [] []]; try reflexivity. done.
Qed.

Lemma named_file_relative (base ext : text) :
  Forall (fun c => c <> "/"%char) base ->
  head ext <> Some "/"%char ->
  head (base ++ ext) <> Some "/"%char.
Proof.
  intros Hb He. destruct base as [|c base]; [exact He|].
  apply Forall_cons in Hb as [Hc _]. simpl. congruence.
Qed.

(** X18. Whatever the input file and the output directory, the transcript and
    the subtitles get two different paths, both directly inside the output
    directory: the directory, a slash unless it is empty or ends with one,
    and a file name without a slash that ends with .txt and .srt. *)
Theorem output_paths_distinct (input_file output_dir : text) :
  exists base_name : text,
    Forall (fun c => c <> "/"%char) base_name
    /\ output_paths input_file output_dir
       = (dir_prefix output_dir ++ base_name ++ str ".txt",
          dir_prefix output_dir ++ base_name ++ str ".srt")
    /\ (output_paths input_file output_dir).1
       <> (output_paths input_file output_dir).2.
Proof.
  unfold output_paths. cbv zeta.
  set (base_name := (splitext (basename input_file)).1).
  assert (Hb : Forall (fun c => c <> "/"%char) base_name).
  { pose proof (basename_no_sep input_file) as H.
    rewrite <- (splitext_app (basename input_file)) in H.
    apply Forall_app in H. tauto. }
  exists base_name. split; [exact Hb|].
  rewrite !path_join_relative by (apply named_file_relative; done).
  split; [reflexivity|]. simpl.
  intros H. apply app_inv_head, app_inv_head in H. discriminate H.
Qed.

Lemma basename_app (dir name : text) :
  dir = [] \/ last dir = Some "/"%char ->
  Forall (fun c => c <> "/"%char) name ->
  basename (dir ++ name) = name.
Proof.
  intros Hd Hn. unfold basename. destruct Hd as [->|Hd].
  - simpl. rewrite (after_last_absent _ _ Hn). reflexivity.
  - apply last_Some in Hd as [dir' ->]. rewrite <- app_assoc. simpl.
    rewrite (after_last_app _ _ _ Hn).
    rewrite (cons_middle "/"%char dir' name), app_assoc.
    replace (S (length dir')) with (length (dir' ++ ["/"%char]))
      by (rewrite length_app; simpl; lia).
    apply drop_app_length.
Qed.

Lemma splitext_named (name ext : text) :
  Forall (fun c => c <> "/"%char) (name ++ ext) ->
  Forall (fun c => c <> "."%char) ext ->
  Exists (fun c => c <> "."%char) name ->
  splitext (name ++ "."%char :: ext) = (name, "."%char :: ext).
Proof.
  intros Hsep Hext Hname. unfold splitext.
  rewrite (after_last_app "." name ext Hext).
  rewrite (after_last_absent "/" (name ++ "."%char :: ext)).
  2:{ apply Forall_app in Hsep as [H1 H2]. apply Forall_app. split; [exact H1|].
      constructor; [discriminate|exact H2]. }
  rewrite Nat.sub_0_r, drop_0, take_app_length, drop_app_length.
  simpl.
  assert (He : existsb (fun c => negb (c =? ".")%char) name = true).
  { apply existsb_exists. apply Exists_exists in Hname as (c & Hin & Hc).
    exists c. split; [apply list_elem_of_In; exact Hin|].
    destruct (Ascii.eqb_spec c "."); done. }
  rewrite He. reflexivity.
Qed.

(** X19. The outputs are named after the input file: the directory of the input
    and its last extension are dropped, and .txt and .srt take the place of
    the extension. Dots inside the name stay. *)
Theorem output_paths_named (dir name ext output_dir : text) :
  dir = [] \/ last dir = Some "/"%char ->
  Forall (fun c => c <> "/"%char) (name ++ ext) ->
  Forall (fun c => c <> "."%char) ext ->
  Exists (fun c => c <> "."%char) name ->
  output_paths (dir ++ name ++ "."%char :: ext) output_dir
  = (dir_prefix output_dir ++ name ++ str ".txt",
     dir_prefix output_dir ++ name ++ str ".srt").
Proof.
  intros Hd Hsep Hext Hname. unfold output_paths. cbv zeta.
  rewrite basename_app; [|exact Hd|].
  2:{ apply Forall_app in Hsep as [H1 H2]. apply Forall_app. split; [exact H1|].
      constructor; [discriminate|exact H2]. }
  rewrite (splitext_named name ext Hsep Hext Hname). cbn [fst].
  apply Forall_app in Hsep as [Hn _].
  rewrite !path_join_relative by (apply named_file_relative; done).
  reflexivity.
Qed.

(** ** The statements above at sample inputs *)

Lemma quiet_env_fault_free (chunks : list chunk) (txt srt : text) :
  Forall (fun c => export_error c = None) chunks ->
  fault_free (quiet_env chunks) chunks txt srt.
Proof. intros H. repeat split; auto. Qed.

Lemma timings_cumulative_sample :
  sample_chunks !! 2%nat = Some (Chunk 1500 None (Transcript (str "general kenobi")))
  /\ timings 0 sample_chunks !! 2%nat = Some (2000, 3500).
Proof.
  split; [reflexivity|].
  exact (proj1 (proj2 (timings_cumulative sample_chunks)) 2%nat _ eq_refl).
Defined.

Lemma no_speech_run_sample :
  let r := transcribe_mp3_to_text_and_srt (quiet_env silent_chunks)
             (str "a.mp3") (str "a.txt") (str "a.srt") (str "en-US")
             (str "talk") empty_world in
  r.1 = true
  /\ files r.2 !! str "a.txt" = Some (str "No speech detected in the audio file.")
  /\ files r.2 !! str "a.srt"
     = Some (str "1" ++ [LF] ++ format_time 0 ++ str " --> "
             ++ format_time 1000 ++ [LF]
             ++ str "No speech detected in the audio file." ++ [LF])
  /\ format_time 0 = str "00:00:00,000"
  /\ format_time 1000 = str "00:00:01,000".
Proof.
  apply (no_speech_run (quiet_env silent_chunks) silent_chunks).
  - apply quiet_env_fault_free. repeat constructor.
  - discriminate.
  - repeat constructor; intros (t & Ht & Hne); simpl in Ht;
      first [discriminate | injection Ht as <-; exact (Hne eq_refl)].
Defined.


Lemma empty_transcript_chunk_sample :
  exists (l_empty l_text : locals) (w_empty w_text : world),
    process_chunks 3 0
      ([Chunk 1200 None (Transcript (str "one"))]
       ++ Chunk 800 None (Transcript [])
       :: [Chunk 1500 None (Transcript (str "three"))])
      (Locals 0 [] []) (World (Some ∅) ∅ []) = (inr l_empty, w_empty)
    /\ process_chunks 3 0
         ([Chunk 1200 None (Transcript (str "one"))]
          ++ Chunk 800 None (Transcript (str "two"))
          :: [Chunk 1500 None (Transcript (str "three"))])
         (Locals 0 [] []) (World (Some ∅) ∅ []) = (inr l_text, w_text)
    /\ subtitle_entries l_empty
       = [Entry 1 0 1200 (str "one"); Entry 3 2000 3500 (str "three")]
    /\ subtitle_entries l_text
       = [Entry 1 0 1200 (str "one"); Entry 2 1200 2000 (str "two");
          Entry 3 2000 3500 (str "three")].
Proof.
  destruct (empty_transcript_chunk 3
              [Chunk 1200 None (Transcript (str "one"))]
              [Chunk 1500 None (Transcript (str "three"))]
              800 (str "two") (World (Some ∅) ∅ []) ∅)
    as (l_empty & l_text & w_empty & w_text & w_unknown & H);
    [repeat constructor | reflexivity | discriminate |].
  exists l_empty, l_text, w_empty, w_text.
  cbv zeta in H. destruct H as (E1 & _ & E2 & _ & _ & S1 & S2 & _).
  repeat split; assumption.
Defined.

Lemma paragraph_break_triggers_sample :
  paragraph_loop 0 [str "One."; str "two"; str "three"; str "four"] ([], [])
  = (str "One." ++ [LF; LF] ++ str "two three four" ++ [LF; LF], []).
Proof.
  exact (proj1 (paragraph_break_triggers
                  [str "One."; str "two"; str "three"; str "four"; str "five"]
                  3 (str "four") eq_refl)
           (or_introl eq_refl)).
Defined.

Lemma format_short_line_stable_sample :
  nonspace (format_transcription (str "Hello world. How are you?"))
  = str "Helloworld.Howareyou?"
  /\ words (format_transcription (str "Hello world. How are you?"))
     = [str "Hello"; str "world."; str "How"; str "are"; str "you?"]
  /\ format_transcription
       (format_transcription (str "Hello world. How are you?"))
     = format_transcription (str "Hello world. How are you?").
Proof.
  destruct (format_short_line_stable (str "Hello world. How are you?"))
    as (Hn & Hshort).
  - unfold capitalized.
    replace (re_split_sentences (strip (str "Hello world. How are you?")))
      with [str "Hello world."; str "How are you?"] by reflexivity.
    repeat constructor; intros c Hc; injection Hc as <-; reflexivity.
  - destruct Hshort as (Hw & Hi & _).
    + split; [|simpl; lia].
      apply Forall_forall. intros c Hc Hs.
      repeat (apply elem_of_cons in Hc as [->|Hc];
              [first [reflexivity|discriminate Hs]|]).
      inversion Hc.
    + split; [exact Hn|]. split; [exact Hw|exact Hi].
Defined.

Lemma format_transcription_never_no_speech_sample :
  files (transcribe_mp3_to_text_and_srt (quiet_env silent_chunks)
           (str "a.mp3") (str "a.txt") (str "a.srt") (str "en-US")
           (str "talk") empty_world).2 !! str "a.txt"
  = Some no_speech.
Proof.
  apply (proj2 (proj2 format_transcription_never_no_speech)
           (quiet_env silent_chunks) silent_chunks).
  - apply quiet_env_fault_free. repeat constructor.
  - discriminate.
  - repeat constructor; intros (t & Ht & Hne); simpl in Ht;
      first [discriminate | injection Ht as <-; exact (Hne eq_refl)].
Defined.

(** ** Further statements at sample inputs *)

Lemma format_time_shape_sample :
  exists h1 h2 m1 m2 s1 s2 f1 f2 f3 : ascii,
    format_time 3661000
    = [h1; h2; ":"; m1; m2; ":"; s1; s2; ","; f1; f2; f3]%char
    /\ Forall (fun c => is_digit c = true) [h1; h2; m1; m2; s1; s2; f1; f2; f3].
Proof. apply (format_time_shape 3661000). lia. Defined.

Lemma format_time_injective_sample :
  format_time 59999 <> format_time 60000.
Proof. apply (format_time_injective 59999 60000); lia. Defined.

Lemma sample_chunks_loop :
  exists (l : locals) (w' : world),
    process_chunks 3 0 sample_chunks (Locals 0 [] []) (World (Some ∅) ∅ [])
    = (inr l, w').
Proof.
  destruct (process_chunks_ok 3 sample_chunks 0%nat (Locals 0 [] [])
              (World (Some ∅) ∅ []) ∅) as (w' & E & _);
    [repeat constructor|reflexivity|].
  eexists _, w'. exact E.
Qed.

Lemma subtitle_entries_ordered_sample :
  exists (l : locals) (w' : world),
    process_chunks 3 0 sample_chunks (Locals 0 [] []) (World (Some ∅) ∅ [])
    = (inr l, w')
    /\ forall (i j : nat) (e1 e2 : entry),
         (i < j)%nat ->
         subtitle_entries l !! i = Some e1 ->
         subtitle_entries l !! j = Some e2 ->
         index e1 < index e2 /\ end_ e1 <= start e2.
Proof.
  destruct sample_chunks_loop as (l & w' & E).
  exists l, w'. split; [exact E|].
  apply (subtitle_entries_ordered 3 sample_chunks l (World (Some ∅) ∅ []) w');
    [|exact E].
  repeat (apply Forall_cons_2; [simpl; lia|]). apply Forall_nil_2.
Defined.

Lemma segments_match_entries_sample :
  exists (l : locals) (w' : world),
    process_chunks 3 0 sample_chunks (Locals 0 [] []) (World (Some ∅) ∅ [])
    = (inr l, w')
    /\ map text_ (subtitle_entries l) = segment_texts l
    /\ Forall (fun t => t <> []) (segment_texts l)
    /\ (length (segment_texts l) <= length sample_chunks)%nat.
Proof.
  destruct sample_chunks_loop as (l & w' & E).
  exists l, w'. split; [exact E|].
  exact (segments_match_entries 3 sample_chunks l _ w' E).
Defined.

Lemma other_files_untouched_sample :
  files (transcribe_mp3_to_text_and_srt (quiet_env sample_chunks)
           (str "a.mp3") (str "a.txt") (str "a.srt") (str "en-US")
           (str "talk") empty_world).2 !! str "notes.txt"
  = files empty_world !! str "notes.txt".
Proof.
  apply (other_files_untouched (quiet_env sample_chunks)); discriminate.
Defined.

Lemma load_failure_sample :
  transcribe_mp3_to_text_and_srt
    (Env (inl (str "Decoding failed")) None (fun _ => None) None)
    (str "a.mp3") (str "a.txt") (str "a.srt") (str "en-US") (str "talk")
    empty_world
  = (false,
     World (temp_dir empty_world) (files empty_world)
       (log empty_world
        ++ [str "Processing MP3 file: " ++ str "a.mp3";
            str "Selected language: " ++ str "en-US";
            str "Content type: " ++ str "talk";
            str "Loading audio file...";
            str "Error during transcription: " ++ str "Decoding failed"])).
Proof.
  apply (load_failure
           (Env (inl (str "Decoding failed")) None (fun _ => None) None)
           (str "Decoding failed")).
  reflexivity.
Defined.

Lemma subtitle_open_failure_sample :
  let E := Env (inr sample_chunks) None
             (fun path => if bool_decide (path = str "/missing/a.srt")
                          then Some (str "No such file or directory")
                          else None)
             None in
  let r := transcribe_mp3_to_text_and_srt E (str "a.mp3") (str "a.txt")
             (str "/missing/a.srt") (str "en-US") (str "talk") empty_world in
  r.1 = false
  /\ files r.2 = <[str "a.txt" := (artifacts sample_chunks).1]> (files empty_world)
  /\ is_Some (temp_dir r.2)
  /\ last (log r.2)
     = Some (str "Error during transcription: "
             ++ str "No such file or directory").
Proof.
  cbv zeta.
  apply (subtitle_open_failure _ sample_chunks (str "No such file or directory"));
    first [reflexivity | repeat constructor].
Defined.

Lemma true_means_written_sample :
  let r := transcribe_mp3_to_text_and_srt (quiet_env sample_chunks)
             (str "a.mp3") (str "a.txt") (str "a.srt") (str "en-US")
             (str "talk") empty_world in
  exists chunks : list chunk,
    audio (quiet_env sample_chunks) = inr chunks
    /\ temp_dir r.2 = None
    /\ files r.2
       = <[str "a.srt" := (artifacts chunks).2]>
           (<[str "a.txt" := (artifacts chunks).1]> (files empty_world))
    /\ last (log r.2) = Some (str "Transcription complete!").
Proof.
  cbv zeta.
  apply (true_means_written (quiet_env sample_chunks)).
  destruct (transcribe_ok (quiet_env sample_chunks) sample_chunks
              (str "a.mp3") (str "a.txt") (str "a.srt") (str "en-US")
              (str "talk") empty_world) as (w' & Hr & _).
  - apply quiet_env_fault_free. repeat constructor.
  - rewrite Hr. reflexivity.
Defined.


Lemma one_file_per_chunk_sample :
  exists (l : locals) (w' : world),
    process_chunks 3 0 sample_chunks (Locals 0 [] []) (World (Some ∅) ∅ [])
    = (inr l, w')
    /\ temp_dir w' = Some (chunk_filenames 0 (length sample_chunks) ∪ ∅)
    /\ size (chunk_filenames 0 (length sample_chunks)) = length sample_chunks
    /\ forall k : nat,
         chunk_filename k ∈ chunk_filenames 0 (length sample_chunks)
         <-> (k < length sample_chunks)%nat.
Proof.
  destruct sample_chunks_loop as (l & w' & E).
  exists l, w'. split; [exact E|].
  exact (one_file_per_chunk 3 sample_chunks l (World (Some ∅) ∅ []) w' ∅
           eq_refl E).
Defined.


Lemma cleanup_failure_sample :
  let E := Env (inr sample_chunks) None (fun _ => None)
             (Some (str "Permission denied")) in
  let r := transcribe_mp3_to_text_and_srt E (str "a.mp3") (str "a.txt")
             (str "a.srt") (str "en-US") (str "talk") empty_world in
  r.1 = false
  /\ files r.2
     = <[str "a.srt" := (artifacts sample_chunks).2]>
         (<[str "a.txt" := (artifacts sample_chunks).1]> (files empty_world))
  /\ is_Some (temp_dir r.2)
  /\ last (log r.2)
     = Some (str "Error during transcription: " ++ str "Permission denied").
Proof.
  cbv zeta.
  apply (cleanup_failure _ sample_chunks (str "Permission denied"));
    first [reflexivity | repeat constructor].
Defined.


Lemma output_paths_named_sample :
  output_paths (str "/music/my.song.MP3") (str "out")
  = (str "out/my.song.txt", str "out/my.song.srt").
Proof.
  apply (output_paths_named (str "/music/") (str "my.song") (str "MP3")
           (str "out")).
  - right. reflexivity.
  - repeat constructor; discriminate.
  - repeat constructor; discriminate.
  - constructor. discriminate.
Defined.
